(** * blocks/model.py: paths, selectors and the model facade

    A shallow embedding of [blocks/model.py] (Python 2).  Python objects
    that are compared by identity (bricks, parameters, Theano variables)
    carry an explicit [id]; exceptions are values of [exn] returned
    through [result]; the insertion-ordered dictionaries of the source
    are association lists without repeated keys. *)

From Stdlib Require Import String Ascii List Bool Arith PeanoNat ZArith Lia.
Import ListNotations.

Set Implicit Arguments.
Set Warnings "-register-all".

(** ** Exceptions and results *)

Inductive exn : Type :=
| AssertionError
| ValueError (msg : string)
| AttributeError (attr : string)
| UnboundLocalError (name : string)
| DuplicatePathError
| RuntimeError.

Inductive result (A : Type) : Type :=
| Ok (a : A)
| Raise (e : exn).

Arguments Ok {A} a.
Arguments Raise {A} e.

Definition bind {A B : Type} (r : result A) (k : A -> result B) : result B :=
  match r with
  | Ok a => k a
  | Raise e => Raise e
  end.

Declare Scope py_scope.
Delimit Scope py_scope with py.
Notation "x <- c1 ;; c2" := (bind c1 (fun x => c2))
  (at level 61, c1 at next level, right associativity) : py_scope.
Open Scope py_scope.

(** ** Python sequence helpers *)

Section Slices.
Variable A : Type.

(** [l[::2]]: the elements at even positions. *)
Fixpoint slice_even (l : list A) : list A :=
  match l with
  | [] => []
  | x :: r =>
      x :: match r with
           | [] => []
           | _ :: r' => slice_even r'
           end
  end.

(** [l[1::2]]: the elements at odd positions. *)
Definition slice_odd (l : list A) : list A :=
  match l with
  | [] => []
  | _ :: r => slice_even r
  end.

(** [l[1:]] *)
Definition slice_from1 (l : list A) : list A := tl l.
End Slices.

(** ** Insertion-ordered dictionaries

    [collections.OrderedDict]: keys are compared with the key type's
    [__eq__] (here [eqb]); assigning to a key that is present replaces
    the value in place and keeps the stored key object and its
    position, a new key goes to the end. *)

Module OrderedDict.
Section Dict.
Variables K V : Type.
Variable eqb : K -> K -> bool.

Definition t : Type := list (K * V).

Definition contains (d : t) (k : K) : bool :=
  existsb (fun kv => eqb (fst kv) k) d.

Fixpoint setitem (d : t) (k : K) (v : V) : t :=
  match d with
  | [] => [(k, v)]
  | (k', v') :: r =>
      if eqb k' k then (k', v) :: r else (k', v') :: setitem r k v
  end.

(** [OrderedDict(pairs)] *)
Definition of_pairs (pairs : list (K * V)) : t :=
  fold_left (fun d kv => setitem d (fst kv) (snd kv)) pairs [].

(** [d.update(other)] *)
Definition update (d other : t) : t :=
  fold_left (fun d kv => setitem d (fst kv) (snd kv)) other d.

Definition items (d : t) : list (K * V) := d.
Definition keys (d : t) : list K := map fst d.
Definition values (d : t) : list V := map snd d.

(** Modelled from the spec: [blocks.utils.dict_union], imported by
    [model.py] but defined in another file of the repository.  The
    spec has it union the per-root mappings, a key collision being
    fatal: the dictionaries are merged from left to right and a key
    already present in the union raises. *)
Fixpoint dict_union_into (acc : t) (dicts : list t) : result t :=
  match dicts with
  | [] => Ok acc
  | d :: ds =>
      if existsb (fun kv => contains acc (fst kv)) d
      then Raise DuplicatePathError
      else dict_union_into (update acc d) ds
  end.

Definition dict_union (dicts : list t) : result t :=
  dict_union_into [] dicts.

(** Two dictionaries collide when a key of one equals a key of the
    other. *)
Definition collide (d1 d2 : t) : Prop :=
  exists k1 k2, In k1 (keys d1) /\ In k2 (keys d2) /\ eqb k1 k2 = true.

End Dict.
End OrderedDict.

(** ** Path *)

Module Path.

Definition separator : string := "/".
Definition param_separator : string := ".".

(** The character class of [separator_re], ["([{}{}])".format(separator,
    param_separator)]: one character out of the two separators. *)
Definition separator_class : list ascii :=
  list_ascii_of_string (separator ++ param_separator).

Definition is_separator (c : ascii) : bool :=
  existsb (Ascii.eqb c) separator_class.

(** [separator_re.split(string)]: the pattern is one capturing group,
    so the result alternates the text between matches with the matched
    separators and always starts and ends with a (possibly empty)
    text. *)
Fixpoint re_split (s : string) : list string :=
  match s with
  | EmptyString => [EmptyString]
  | String c rest =>
      if is_separator c
      then EmptyString :: String c EmptyString :: re_split rest
      else match re_split rest with
           | text :: more => String c text :: more
           | [] => [String c EmptyString]
           end
  end.

(** A path node is a [str] of one of the two subclasses. *)
Inductive node : Type :=
| BrickName (s : string)
| ParamName (s : string).

(** The underlying [str] value. *)
Definition str_of (n : node) : string :=
  match n with
  | BrickName s => s
  | ParamName s => s
  end.

Definition part (n : node) : string :=
  match n with
  | BrickName s => separator ++ s
  | ParamName s => param_separator ++ s
  end.

(** Neither subclass overrides [__eq__]: nodes compare as strings. *)
Definition node_eqb (a b : node) : bool := String.eqb (str_of a) (str_of b).

Record t : Type := Path { nodes : list node }.

Definition __str__ (self : t) : string :=
  String.concat EmptyString (map part (nodes self)).

Definition __add__ (self other : t) : t :=
  Path (nodes self ++ nodes other).

(** Tuple equality: same length and pairwise equal elements. *)
Fixpoint tuple_eqb (a b : list node) : bool :=
  match a, b with
  | [], [] => true
  | x :: a', y :: b' => node_eqb x y && tuple_eqb a' b'
  | _, _ => false
  end.

Definition __eq__ (self other : t) : bool :=
  tuple_eqb (nodes self) (nodes other).

Section Hash.
(** The built-in hashes of [str] and of tuples. *)
Variable str_hash : string -> Z.
Variable tuple_hash : list Z -> Z.

Definition node_hash (n : node) : Z := str_hash (str_of n).

Definition __hash__ (self : t) : Z :=
  tuple_hash (map node_hash (nodes self)).
End Hash.

(** The body of the loop of [parse] for one [(separator, part)]. *)
Definition dispatch (sep part : string) : result node :=
  if String.eqb sep separator then Ok (BrickName part)
  else if String.eqb param_separator param_separator then Ok (ParamName part)
  else Raise (ValueError ("Wrong separator " ++ sep)).

Fixpoint parse_loop (pairs : list (string * string)) (acc : list node)
  : result (list node) :=
  match pairs with
  | [] => Ok acc
  | (sep, part) :: rest =>
      n <- dispatch sep part ;;
      parse_loop rest (acc ++ [n])
  end.

Definition parse (string : String.string) : result t :=
  let elements := slice_from1 (re_split string) in
  let separators := slice_even elements in
  let parts := slice_odd elements in
  if (length elements =? 2 * length separators)
     && (2 * length separators =? 2 * length parts)
  then
    nodes <- parse_loop (combine separators parts) [] ;;
    Ok (Path nodes)
  else Raise AssertionError.

End Path.

(** ** The tree interface: bricks and their parameters *)

Module Param.
Record t : Type := mk { id : nat; name : string }.
End Param.

Module Brick.
Inductive t : Type :=
| mk (id : nat) (name : string) (allocated : bool)
     (children : list t) (params : list Param.t).

Definition id (b : t) : nat := let (i, _, _, _, _) := b in i.
Definition name (b : t) : string := let (_, n, _, _, _) := b in n.
Definition allocated (b : t) : bool := let (_, _, a, _, _) := b in a.
Definition children (b : t) : list t := let (_, _, _, c, _) := b in c.
Definition params (b : t) : list Param.t := let (_, _, _, _, p) := b in p.
End Brick.

(** ** Selector *)

Module Selector.

(** The bricks of a selection; [None] is Python's [None], which
    [select] itself puts there as the mark of the whole selection. *)
Record t : Type := Selector { bricks : list (option Brick.t) }.

(** What [select] returns: a selector or a list of parameters. *)
Inductive selection : Type :=
| Bricks (s : t)
| Params (l : list Param.t).

(** [path : Path or str] *)
Inductive path_arg : Type :=
| Str (s : string)
| APath (p : Path.t).

(** [a == b] on brick references, as [in] tests it: bricks define no
    [__eq__], so this is [a is b]. *)
Definition same_brick (a b : option Brick.t) : bool :=
  match a, b with
  | None, None => true
  | Some x, Some y => Brick.id x =? Brick.id y
  | _, _ => false
  end.

(** [param_name] is a [ParamName] or [None]; the empty name is as false
    as [None]. *)
Definition keeps (param_name : option Path.node) (param : Param.t) : bool :=
  match param_name with
  | None => true
  | Some n =>
      if String.eqb (Path.str_of n) EmptyString then true
      else String.eqb (Param.name param) (Path.str_of n)
  end.

(** The inner [recursion] of [get_params], on a brick. *)
Fixpoint recursion (param_name : option Path.node) (brick : Brick.t)
  : OrderedDict.t Path.t Param.t :=
  match brick with
  | Brick.mk _ name _ children params =>
      let result :=
        OrderedDict.of_pairs Path.__eq__
          (map (fun param =>
                  (Path.Path [Path.BrickName name;
                              Path.ParamName (Param.name param)], param))
               (filter (keeps param_name) params)) in
      fold_left
        (fun result child =>
           fold_left
             (fun result kv =>
                let new_path :=
                  Path.__add__ (Path.Path [Path.BrickName name]) (fst kv) in
                OrderedDict.setitem Path.__eq__ result new_path (snd kv))
             (OrderedDict.items (recursion param_name child))
             result)
        children result
  end.

(** [recursion(brick)] for an element of [self.bricks]: [None] has no
    [params]. *)
Definition recursion_ref (param_name : option Path.node)
           (brick : option Brick.t)
  : result (OrderedDict.t Path.t Param.t) :=
  match brick with
  | None => Raise (AttributeError "params")
  | Some b => Ok (recursion param_name b)
  end.

(** The list comprehension [[recursion(brick) for brick in self.bricks]]. *)
Fixpoint recursion_all (param_name : option Path.node)
         (bricks : list (option Brick.t))
  : result (list (OrderedDict.t Path.t Param.t)) :=
  match bricks with
  | [] => Ok []
  | b :: rest =>
      d <- recursion_ref param_name b ;;
      ds <- recursion_all param_name rest ;;
      Ok (d :: ds)
  end.

Definition get_params (self : t) (param_name : option Path.node)
  : result (OrderedDict.t string Param.t) :=
  dicts <- recursion_all param_name (bricks self) ;;
  result <- OrderedDict.dict_union Path.__eq__ dicts ;;
  Ok (OrderedDict.of_pairs String.eqb
        (map (fun kv => (Path.__str__ (fst kv), snd kv))
             (OrderedDict.items result))).

(** [[child for child in children if child.name == node]] *)
Fixpoint matching (node : string) (children : list (option Brick.t))
  : result (list (option Brick.t)) :=
  match children with
  | [] => Ok []
  | None :: _ => Raise (AttributeError "name")
  | Some child :: rest =>
      more <- matching node rest ;;
      Ok (if String.eqb (Brick.name child) node
          then Some child :: more else more)
  end.

(** [if not match in next_bricks: next_bricks.append(match)] *)
Definition append_one (next_bricks : list (option Brick.t))
           (m : option Brick.t) : list (option Brick.t) :=
  if existsb (same_brick m) next_bricks then next_bricks
  else next_bricks ++ [m].

(** [for match in matching_bricks: ...] *)
Definition append_new (next_bricks matching_bricks : list (option Brick.t))
  : list (option Brick.t) :=
  fold_left append_one matching_bricks next_bricks.

(** [brick.children if brick else self.bricks] *)
Definition children_of (self : t) (brick : option Brick.t)
  : list (option Brick.t) :=
  match brick with
  | Some b => map Some (Brick.children b)
  | None => bricks self
  end.

(** [for brick in current_bricks: ...] for one [BrickName] node. *)
Fixpoint descend (self : t) (node : string)
         (current_bricks next_bricks : list (option Brick.t))
  : result (list (option Brick.t)) :=
  match current_bricks with
  | [] => Ok next_bricks
  | brick :: rest =>
      matching_bricks <- matching node (children_of self brick) ;;
      descend self node rest (append_new next_bricks matching_bricks)
  end.

(** [for node in path.nodes: ...] *)
Fixpoint select_loop (self : t) (nodes : list Path.node)
         (current_bricks : list (option Brick.t)) : result selection :=
  match nodes with
  | [] => Ok (Bricks (Selector current_bricks))
  | Path.ParamName n :: _ =>
      d <- get_params (Selector current_bricks) (Some (Path.ParamName n)) ;;
      Ok (Params (OrderedDict.values d))
  | Path.BrickName n :: rest =>
      next_bricks <- descend self n current_bricks [] ;;
      select_loop self rest next_bricks
  end.

Definition select (self : t) (path : path_arg) : result selection :=
  path <- match path with
          | Str s => Path.parse s
          | APath p => Ok p
          end ;;
  select_loop self (Path.nodes path) [None].

End Selector.

(** ** The graph interface: Theano variables *)

Module Var.

(** The classes [is_input] tells apart with [isinstance]. *)
Inductive class : Type :=
| SharedVariable
| TensorConstant
| ScalarConstant
| TensorVariable.

(** A variable is an object with an identity, a class and an optional
    owner, the application node whose [inputs] are variables again. *)
Inductive t : Type :=
| mk (id : nat) (cls : class) (owner : option (list t)).

Definition id (v : t) : nat := let (i, _, _) := v in i.
Definition cls (v : t) : class := let (_, c, _) := v in c.
Definition owner (v : t) : option (list t) := let (_, _, o) := v in o.

Definition isinstance (v : t) (c : class) : bool :=
  match cls v, c with
  | SharedVariable, SharedVariable => true
  | TensorConstant, TensorConstant => true
  | ScalarConstant, ScalarConstant => true
  | TensorVariable, TensorVariable => true
  | _, _ => false
  end.

(** Variables hash and compare by identity. *)
Definition same (a b : t) : bool := id a =? id b.

(** A [set] of variables, kept here in the order of insertion; Python
    fixes no order of iteration, and no statement below relies on
    one. *)
Definition set : Type := list t.

Definition mem (v : t) (s : set) : bool := existsb (same v) s.

Definition add (v : t) (s : set) : set :=
  if mem v s then s else s ++ [v].

End Var.

(** ** Model *)

Module Model.

Record t : Type := Model {
  top_bricks : list Brick.t;
  basic_cost : Var.t;
  variables : Var.set;
  input_variables : list Var.t
}.

(** The inner [recursion] of [_get_variables].  [inputs_loop] is the
    [for] loop with the statement after it: [inp] is the loop variable,
    unbound until the first iteration. *)
Fixpoint recursion (current : Var.t) (variables : Var.set)
  : result Var.set :=
  match current with
  | Var.mk _ _ None => Ok variables
  | Var.mk _ _ (Some inputs) =>
      (fix inputs_loop (inputs : list Var.t) (inp : option Var.t)
           (variables : Var.set) : result Var.set :=
         match inputs with
         | [] =>
             match inp with
             | None => Raise (UnboundLocalError "inp")
             | Some inp => Ok (Var.add inp variables)
             end
         | i :: rest =>
             if negb (Var.mem i variables)
             then variables' <- recursion i variables ;;
                  inputs_loop rest (Some i) variables'
             else inputs_loop rest (Some i) variables
         end) inputs None variables
  end.

Definition is_input (variable : Var.t) : bool :=
  match Var.owner variable with
  | None =>
      negb (Var.isinstance variable Var.SharedVariable)
      && negb (Var.isinstance variable Var.TensorConstant)
      && negb (Var.isinstance variable Var.ScalarConstant)
  | Some _ => false
  end.

(** [_get_variables]: the two attributes it sets. *)
Definition _get_variables (cost : Var.t)
  : result (Var.set * list Var.t) :=
  variables <- recursion cost [] ;;
  Ok (variables, filter is_input variables).

Fixpoint assert_allocated (bricks : list Brick.t) : result unit :=
  match bricks with
  | [] => Ok tt
  | brick :: rest =>
      if Brick.allocated brick then assert_allocated rest
      else Raise AssertionError
  end.

Definition __init__ (top_bricks : list Brick.t) (basic_cost : Var.t)
  : result t :=
  _ <- assert_allocated top_bricks ;;
  vs <- _get_variables basic_cost ;;
  Ok (Model top_bricks basic_cost (fst vs) (snd vs)).

Definition cost (self : t) : Var.t := basic_cost self.

(** [if path:] holds for a [Path] object and for a non-empty string. *)
Definition truthy (path : option Selector.path_arg) : bool :=
  match path with
  | None => false
  | Some (Selector.Str s) => negb (String.eqb s EmptyString)
  | Some (Selector.APath _) => true
  end.

Definition select (self : t) (path : option Selector.path_arg)
  : result Selector.selection :=
  let selection := Selector.Selector (map Some (top_bricks self)) in
  match path with
  | Some p =>
      if truthy path then Selector.select selection p
      else Ok (Selector.Bricks selection)
  | None => Ok (Selector.Bricks selection)
  end.

Definition get_params (self : t)
  : result (OrderedDict.t string Param.t) :=
  s <- select self None ;;
  match s with
  | Selector.Bricks s => Selector.get_params s None
  | Selector.Params _ => Raise (AttributeError "get_params")
  end.

End Model.

(** ** Vocabulary of the statements about paths *)

Module PathSpec.
Import Path.

(** The number of separator characters of a string. *)
Definition count_separators (s : string) : nat :=
  length (filter is_separator (list_ascii_of_string s)).

(** A name token: no separator character in it. *)
Definition valid_name (s : string) : bool :=
  forallb (fun c => negb (is_separator c)) (list_ascii_of_string s).

Definition valid_node (n : node) : bool := valid_name (str_of n).

(** The first character of the string is one of the separators. *)
Definition begins_with_separator (s : string) : bool :=
  match s with
  | EmptyString => false
  | String c _ => is_separator c
  end.

(** The separator that introduces a node in the string form. *)
Definition separator_of (n : node) : string :=
  match n with
  | BrickName _ => separator
  | ParamName _ => param_separator
  end.

End PathSpec.

(** ** Vocabulary of the statements about selections *)

Module SelectorSpec.

(** The identity of a reference, [None] being one object of its own. *)
Definition identity (b : option Brick.t) : option nat :=
  option_map Brick.id b.

(** All the names in the tree of a brick, those of its parameters
    included, are name tokens. *)
Fixpoint valid_brick (b : Brick.t) : bool :=
  match b with
  | Brick.mk _ name _ children params =>
      PathSpec.valid_name name
      && forallb (fun p => PathSpec.valid_name (Param.name p)) params
      && forallb valid_brick children
  end.

(** The paths of a dictionary are made of name tokens. *)
Definition valid_keys (d : OrderedDict.t Path.t Param.t) : Prop :=
  forall k, In k (OrderedDict.keys d) ->
            forallb PathSpec.valid_node (Path.nodes k) = true.

(** The full-path strings [get_params] derives from one root. *)
Definition full_paths (param_name : option Path.node) (b : Brick.t)
  : list string :=
  map Path.__str__ (OrderedDict.keys (Selector.recursion param_name b)).

(** The bricks [select] looks into from a member of the frontier, when
    the bricks of the selector are the real bricks [roots]. *)
Definition children_list (roots : list Brick.t) (brick : option Brick.t)
  : list Brick.t :=
  match brick with
  | Some b => Brick.children b
  | None => roots
  end.

(** [at_path roots names b]: the brick [b] is found from [roots] along a
    chain of children with the given names, its own name last. *)
Fixpoint at_path (roots : list Brick.t) (names : list string) (b : Brick.t)
         {struct names} : Prop :=
  match names with
  | [] => False
  | n :: rest =>
      match rest with
      | [] => In b roots /\ Brick.name b = n
      | _ :: _ =>
          exists parent,
            In parent roots /\ Brick.name parent = n
            /\ at_path (Brick.children parent) rest b
      end
  end.

(** The bricks of the tree of a brick, the brick itself first. *)
Fixpoint subtree (b : Brick.t) : list Brick.t :=
  match b with
  | Brick.mk _ _ _ children _ => b :: flat_map subtree children
  end.

End SelectorSpec.

(** ** Vocabulary of the statements about the cost graph *)

Module GraphSpec.

(** The nodes reachable from a variable along owner and input edges, the
    variable itself first. *)
Fixpoint reachable (v : Var.t) : list Var.t :=
  match v with
  | Var.mk _ _ None => [v]
  | Var.mk _ _ (Some inputs) => v :: flat_map reachable inputs
  end.

End GraphSpec.

(** ** Sample trees and graphs *)

Module Examples.

Definition w1 : Param.t := Param.mk 1 "w".
Definition w2 : Param.t := Param.mk 2 "w".

(** Two distinct bricks of the same name, each with its own [w]. *)
Definition layer1 : Brick.t := Brick.mk 11 "layer" true [] [w1].
Definition layer2 : Brick.t := Brick.mk 12 "layer" true [] [w2].

Definition net_left : Brick.t := Brick.mk 20 "net" true [layer1] [].
Definition net_right : Brick.t := Brick.mk 21 "net" true [layer2] [].

(** One root with the two same-named siblings. *)
Definition net_both : Brick.t := Brick.mk 22 "net" true [layer1; layer2] [].

(** Two roots with the full path ["/a/b.w"]: a brick whose name holds a
    separator, and a brick [a] with a child [b]. *)
Definition slashed : Brick.t := Brick.mk 30 "a/b" true [] [w1].
Definition nested : Brick.t :=
  Brick.mk 31 "a" true [Brick.mk 32 "b" true [] [w2]] [].

(** The cost [f(a, b, c)]: [a] is shared state, [b] a constant, [c] a
    free input. *)
Definition a : Var.t := Var.mk 1 Var.SharedVariable None.
Definition b : Var.t := Var.mk 2 Var.TensorConstant None.
Definition c : Var.t := Var.mk 3 Var.TensorVariable None.
Definition f : Var.t := Var.mk 4 Var.TensorVariable (Some [a; b; c]).

(** The cost [g(x, a)]: the free input [x] comes before the shared [a]. *)
Definition x : Var.t := Var.mk 5 Var.TensorVariable None.
Definition g : Var.t := Var.mk 6 Var.TensorVariable (Some [x; a]).

End Examples.

(** ** Vocabulary of the statements about the model *)

Module ModelSpec.

(** The loop of [recursion] over the inputs of an owner, on its own. *)
Fixpoint inputs_loop (inputs : list Var.t) (inp : option Var.t)
         (variables : Var.set) : result Var.set :=
  match inputs with
  | [] =>
      match inp with
      | None => Raise (UnboundLocalError "inp")
      | Some inp => Ok (Var.add inp variables)
      end
  | i :: rest =>
      if negb (Var.mem i variables)
      then variables' <- Model.recursion i variables ;;
           inputs_loop rest (Some i) variables'
      else inputs_loop rest (Some i) variables
  end.

(** A variable without owner. *)
Definition is_leaf (v : Var.t) : bool :=
  match Var.owner v with
  | None => true
  | Some _ => false
  end.

(** What [recursion] adds to the set is reachable from its argument. *)
Definition adds_reachable (v : Var.t) : Prop :=
  forall variables variables',
    Model.recursion v variables = Ok variables' ->
    forall u, In u variables' ->
              In u variables \/ In u (GraphSpec.reachable v).

(** [u] is the last input of an operation reachable from [cost]. *)
Definition last_of_operation (cost u : Var.t) : Prop :=
  exists op front,
    In op (GraphSpec.reachable cost) /\ Var.owner op = Some (front ++ [u]).

(** What [recursion] adds to the set is a last input below its
    argument. *)
Definition adds_last_inputs (v : Var.t) : Prop :=
  forall variables variables',
    Model.recursion v variables = Ok variables' ->
    forall u, In u variables' ->
              In u variables \/ last_of_operation v u.

(** The variable is not the output of an operation without inputs. *)
Definition has_inputs (v : Var.t) : bool :=
  match Var.owner v with
  | Some [] => false
  | _ => true
  end.

(** The walk of [Model.recursion] returns on the variable when no
    operation below it lacks inputs. *)
Definition returns_with_inputs (v : Var.t) : Prop :=
  forallb has_inputs (GraphSpec.reachable v) = true ->
  forall variables, exists variables',
      Model.recursion v variables = Ok variables'.

End ModelSpec.

(** ** The recursion limit

    [recursion] calls itself once per level of the graph, and the
    interpreter allows only so many nested calls.  Here [frames] is the
    number of nested calls still allowed when the call is made; a call
    made when none is left raises the [RuntimeError] of the maximum
    recursion depth.  [Model.recursion] above is the same walk without
    that limit. *)

Module RecursionLimit.

(** The loop over the inputs, with the function that the recursive call
    is. *)
Fixpoint inputs_loop (call : Var.t -> Var.set -> result Var.set)
         (inputs : list Var.t) (inp : option Var.t)
         (variables : Var.set) : result Var.set :=
  match inputs with
  | [] =>
      match inp with
      | None => Raise (UnboundLocalError "inp")
      | Some inp => Ok (Var.add inp variables)
      end
  | i :: rest =>
      if negb (Var.mem i variables)
      then variables' <- call i variables ;;
           inputs_loop call rest (Some i) variables'
      else inputs_loop call rest (Some i) variables
  end.

Fixpoint recursion (frames : nat) (current : Var.t) (variables : Var.set)
  : result Var.set :=
  match frames with
  | 0 => Raise RuntimeError
  | S frames =>
      match Var.owner current with
      | None => Ok variables
      | Some inputs => inputs_loop (recursion frames) inputs None variables
      end
  end.

Definition _get_variables (frames : nat) (cost : Var.t)
  : result (Var.set * list Var.t) :=
  variables <- recursion frames cost [] ;;
  Ok (variables, filter Model.is_input variables).

(** The number of nested calls the walk of a graph can need: its height
    in variables. *)
Fixpoint height (v : Var.t) : nat :=
  match v with
  | Var.mk _ _ None => 1
  | Var.mk _ _ (Some inputs) => S (list_max (map height inputs))
  end.

(** A chain of [n] operations of one input over a leaf. *)
Fixpoint chain (n : nat) : Var.t :=
  match n with
  | 0 => Var.mk 0 Var.TensorVariable None
  | S m => Var.mk n Var.TensorVariable (Some [chain m])
  end.

End RecursionLimit.

(** * Properties *)

(** ** Splitting and slicing *)

Section SliceFacts.
Variable A : Type.

Lemma slice_lengths (k : nat) :
  forall l : list A,
    length l = 2 * k ->
    length (slice_even l) = k /\ length (slice_odd l) = k.
Proof.
  induction k as [|k IH]; intros l Hl.
  - destruct l; [split; reflexivity | discriminate].
  - destruct l as [|x [|y l']]; simpl in Hl; try lia.
    destruct (IH l') as [He Ho]; [lia|].
    split; simpl.
    + now rewrite He.
    + f_equal. exact Ho.
Qed.

Variables (B : Type) (f g : B -> A).

Lemma slice_even_interleave (l : list B) :
  slice_even (flat_map (fun b => [f b; g b]) l) = map f l.
Proof.
  induction l as [|b l IH]; simpl; [reflexivity|].
  now rewrite IH.
Qed.

Lemma slice_odd_interleave (l : list B) :
  slice_odd (flat_map (fun b => [f b; g b]) l) = map g l.
Proof.
  destruct l as [|b l]; simpl; [reflexivity|].
  f_equal. induction l as [|b' l IH]; simpl; [reflexivity|].
  now rewrite IH.
Qed.
End SliceFacts.

Module PathFacts.
Import Path PathSpec.

Lemma re_split_shape (s : string) :
  exists text more,
    re_split s = text :: more /\ length more = 2 * count_separators s.
Proof.
  induction s as [|c s (text & more & Hs & Hlen)].
  - exists EmptyString, []. split; reflexivity.
  - unfold count_separators. simpl.
    destruct (is_separator c) eqn:Hc.
    + exists EmptyString, (String c EmptyString :: re_split s).
      split; [reflexivity|]. rewrite Hs. simpl.
      unfold count_separators in Hlen. lia.
    + rewrite Hs. exists (String c text), more.
      split; [reflexivity | exact Hlen].
Qed.

Lemma elements_length (s : string) :
  length (slice_from1 (re_split s)) = 2 * count_separators s.
Proof.
  destruct (re_split_shape s) as (text & more & -> & Hlen). exact Hlen.
Qed.

Lemma dispatch_total (sep part : string) :
  exists n, dispatch sep part = Ok n.
Proof.
  unfold dispatch. destruct (String.eqb sep separator).
  - eauto.
  - rewrite String.eqb_refl. eauto.
Qed.

Lemma parse_loop_total (pairs : list (string * string)) :
  forall acc, exists more,
    parse_loop pairs acc = Ok (acc ++ more) /\ length more = length pairs.
Proof.
  induction pairs as [|[sep part] pairs IH]; intros acc; simpl.
  - exists []. now rewrite app_nil_r.
  - destruct (dispatch_total sep part) as [n ->]. simpl.
    destruct (IH (acc ++ [n])) as (more & -> & Hlen).
    exists (n :: more). rewrite <- app_assoc. simpl. now rewrite Hlen.
Qed.

(** The assertion of [parse] holds whatever the string. *)
Lemma parse_unfold (s : string) :
  let elements := slice_from1 (re_split s) in
  parse s =
    (nodes <- parse_loop (combine (slice_even elements)
                                  (slice_odd elements)) [] ;;
     Ok (Path nodes)).
Proof.
  intros elements. unfold parse. fold elements.
  destruct (slice_lengths (count_separators s) elements
              (elements_length s)) as [He Ho].
  rewrite He, Ho. unfold elements at 1. rewrite elements_length.
  now rewrite Nat.eqb_refl.
Qed.

Lemma parse_total (s : string) :
  exists p, parse s = Ok p /\ length (nodes p) = count_separators s.
Proof.
  rewrite parse_unfold.
  set (elements := slice_from1 (re_split s)).
  destruct (slice_lengths (count_separators s) elements
              (elements_length s)) as [He Ho].
  destruct (parse_loop_total
              (combine (slice_even elements) (slice_odd elements)) [])
    as (more & -> & Hlen).
  simpl. exists (Path more). split; [reflexivity|]. simpl.
  rewrite Hlen, length_combine, He, Ho. apply Nat.min_id.
Qed.

(** A string that starts with the parameter separator parses to a path
    that starts with a parameter name. *)
Lemma parse_param_first (s : string) :
  exists name more,
    parse (param_separator ++ s) = Ok (Path (ParamName name :: more)).
Proof.
  rewrite parse_unfold.
  destruct (re_split_shape s) as (text & rest & Hs & _).
  change (re_split (param_separator ++ s))
    with (EmptyString :: param_separator :: re_split s).
  rewrite Hs. unfold slice_from1. simpl tl.
  change (slice_even (param_separator :: text :: rest))
    with (param_separator :: slice_even rest).
  change (slice_odd (param_separator :: text :: rest))
    with (text :: slice_odd rest).
  simpl combine. simpl parse_loop.
  destruct (parse_loop_total (combine (slice_even rest) (slice_odd rest))
              [ParamName text]) as (more & -> & _).
  exists text, more. reflexivity.
Qed.

End PathFacts.

Module PathTheorems.
Import Path PathSpec PathFacts.

Lemma concat_cons (x : string) (xs : list string) :
  String.concat EmptyString (x :: xs)
  = (x ++ String.concat EmptyString xs)%string.
Proof.
  destruct xs as [|y ys]; simpl; [|reflexivity].
  induction x as [|c x IH]; simpl; [reflexivity | now rewrite <- IH].
Qed.

Lemma append_empty_r (s : string) : (s ++ EmptyString)%string = s.
Proof. induction s as [|c s IH]; simpl; [reflexivity | now rewrite IH]. Qed.

(** Text free of separators in front of a string joins the first text of
    its split. *)
Lemma re_split_text (t s text : string) (more : list string) :
  valid_name t = true ->
  re_split s = text :: more ->
  re_split (t ++ s) = (t ++ text)%string :: more.
Proof.
  intros Ht Hs. induction t as [|c t IH]; simpl; [exact Hs|].
  unfold valid_name in Ht. simpl in Ht.
  apply andb_true_iff in Ht as [Hc Ht].
  apply negb_true_iff in Hc. rewrite Hc, (IH Ht). reflexivity.
Qed.

Lemma re_split_part (n : node) (s text : string) (more : list string) :
  valid_node n = true ->
  re_split s = text :: more ->
  re_split (part n ++ s)
  = EmptyString :: separator_of n :: (str_of n ++ text)%string :: more.
Proof.
  intros Hn Hs.
  destruct n as [name|name]; simpl;
    now rewrite (re_split_text name s Hn Hs).
Qed.

Lemma re_split_str (ns : list node) :
  forallb valid_node ns = true ->
  re_split (String.concat EmptyString (map part ns))
  = EmptyString :: flat_map (fun n => [separator_of n; str_of n]) ns.
Proof.
  induction ns as [|n ns IH]; intros Hns; [reflexivity|].
  simpl in Hns. apply andb_true_iff in Hns as [Hn Hns].
  change (map part (n :: ns)) with (part n :: map part ns).
  rewrite concat_cons, (re_split_part n _ Hn (IH Hns)).
  simpl. now rewrite append_empty_r.
Qed.

Lemma dispatch_separator_of (n : node) :
  dispatch (separator_of n) (str_of n) = Ok n.
Proof. destruct n; reflexivity. Qed.

Lemma parse_loop_nodes (ns : list node) :
  forall acc,
    parse_loop (combine (map separator_of ns) (map str_of ns)) acc
    = Ok (acc ++ ns).
Proof.
  induction ns as [|n ns IH]; intros acc; simpl.
  - now rewrite app_nil_r.
  - rewrite dispatch_separator_of. simpl.
    rewrite IH, <- app_assoc. reflexivity.
Qed.

(** The string form of valid nodes parses back to these nodes. *)
Lemma parse_str_valid (ns : list node) :
  forallb valid_node ns = true ->
  parse (__str__ (Path ns)) = Ok (Path ns).
Proof.
  intros Hns. rewrite parse_unfold. unfold __str__. simpl nodes.
  rewrite (re_split_str ns Hns). unfold slice_from1. simpl tl.
  rewrite slice_even_interleave, slice_odd_interleave.
  now rewrite parse_loop_nodes.
Qed.

(** Hence valid paths with the same string form are the same path. *)
Lemma str_injective (p q : Path.t) :
  forallb valid_node (nodes p) = true ->
  forallb valid_node (nodes q) = true ->
  __str__ p = __str__ q ->
  p = q.
Proof.
  destruct p as [ns], q as [ms]. simpl. intros Hp Hq Hs.
  pose proof (parse_str_valid ns Hp) as H1.
  rewrite Hs, (parse_str_valid ms Hq) in H1. congruence.
Qed.

(** C5. Round trip: a path whose nodes are all names without separator
    characters is parsed back from its string form, as the very same
    sequence of nodes and hence equal to it under [__eq__]. *)
Theorem parse_str_roundtrip (p : Path.t) :
  forallb valid_node (nodes p) = true ->
  exists q, parse (__str__ p) = Ok q /\ q = p /\ __eq__ q p = true.
Proof.
  intros Hp. destruct p as [ns]. simpl in Hp.
  exists (Path ns). repeat split; [exact (parse_str_valid ns Hp)|].
  unfold __eq__. simpl. clear.
  induction ns as [|n ns IH]; simpl; [reflexivity|].
  unfold node_eqb. now rewrite String.eqb_refl.
Qed.

Lemma parse_str_roundtrip_witness :
  exists q,
    parse (__str__ (Path [BrickName "mlp"; BrickName "linear"; ParamName "W"]))
    = Ok q
    /\ q = Path [BrickName "mlp"; BrickName "linear"; ParamName "W"]
    /\ __eq__ q (Path [BrickName "mlp"; BrickName "linear"; ParamName "W"])
       = true.
Proof.
  apply (parse_str_roundtrip
           (Path [BrickName "mlp"; BrickName "linear"; ParamName "W"])).
  reflexivity.
Defined.

(** C3, counterexample.  A string that does not begin with a separator
    is parsed without any error: the text before the first separator is
    dropped, here all of it. *)
Lemma parse_accepts_missing_leading_separator :
  begins_with_separator "abc" = false
  /\ parse "abc" = Ok (Path [])
  /\ begins_with_separator "abc/de" = false
  /\ parse "abc/de" = Ok (Path [BrickName "de"]).
Proof. repeat split. Qed.

(** C3, amended.  [parse] raises for no string at all: every string,
    whether or not it follows the path grammar, is parsed to a path with
    exactly one node per separator character in it, and text without
    separator in front of a string changes nothing to what it parses
    to. *)
Theorem parse_never_raises (s : string) :
  (exists p, parse s = Ok p /\ length (nodes p) = count_separators s)
  /\ (forall t, valid_name t = true -> parse (t ++ s) = parse s).
Proof.
  split; [exact (parse_total s)|].
  intros t Ht. rewrite !parse_unfold.
  destruct (re_split_shape s) as (text & more & Hs & _).
  now rewrite (re_split_text t s Ht Hs), Hs.
Qed.

Lemma parse_never_raises_witness :
  (exists p, parse "/de.w" = Ok p
             /\ length (nodes p) = count_separators "/de.w")
  /\ parse ("abc" ++ "/de.w") = parse "/de.w".
Proof.
  destruct (parse_never_raises "/de.w") as [Htotal Hprefix].
  split; [exact Htotal|]. apply (Hprefix "abc"%string). reflexivity.
Defined.

(** C7. The [else] branch of the separator dispatch is dead: the [elif]
    before it compares [param_separator] with itself, so neither one step
    of the loop nor [parse] as a whole raises the [ValueError]. *)
Theorem parse_wrong_separator_unreachable :
  String.eqb param_separator param_separator = true
  /\ (forall sep part msg, dispatch sep part <> Raise (ValueError msg))
  /\ (forall s msg, parse s <> Raise (ValueError msg)).
Proof.
  split; [reflexivity|]. split.
  - intros sep part msg H.
    destruct (dispatch_total sep part) as [n Hn]. congruence.
  - intros s msg H.
    destruct (parse_total s) as (p & Hp & _). congruence.
Qed.

(** C9. Equality and hashing of paths look at the names only: a path
    made of the brick name [n] and one made of the parameter name [n] are
    equal and have the same hash, whatever the hash functions of strings
    and tuples are, though their string forms differ. *)
Theorem eq_hash_ignore_kind
        (str_hash : string -> Z) (tuple_hash : list Z -> Z) (n : string) :
  __eq__ (Path [BrickName n]) (Path [ParamName n]) = true
  /\ __hash__ str_hash tuple_hash (Path [BrickName n])
     = __hash__ str_hash tuple_hash (Path [ParamName n])
  /\ __str__ (Path [BrickName n]) = String "/" n
  /\ __str__ (Path [ParamName n]) = String "." n
  /\ __str__ (Path [BrickName n]) <> __str__ (Path [ParamName n]).
Proof.
  split; [|repeat split].
  - unfold __eq__. cbn [nodes tuple_eqb]. unfold node_eqb. cbn [str_of].
    now rewrite String.eqb_refl.
  - unfold __str__. simpl. discriminate.
Qed.

End PathTheorems.

(** ** Selections *)

Module SelectorFacts.
Import Selector SelectorSpec.

Lemma same_brick_identity (a b : option Brick.t) :
  same_brick a b = true <-> identity a = identity b.
Proof.
  destruct a as [x|], b as [y|]; simpl; try (split; congruence).
  rewrite Nat.eqb_eq. split; congruence.
Qed.

Lemma seen_identity (m : option Brick.t) (l : list (option Brick.t)) :
  existsb (same_brick m) l = true <-> In (identity m) (map identity l).
Proof.
  rewrite existsb_exists, in_map_iff. split.
  - intros (x & Hx & Hs). apply same_brick_identity in Hs. eauto.
  - intros (x & Hs & Hx). exists x. split; [exact Hx|].
    now apply same_brick_identity.
Qed.

Lemma NoDup_snoc (A : Type) (l : list A) (x : A) :
  NoDup l -> ~ In x l -> NoDup (l ++ [x]).
Proof.
  induction 1 as [|y l Hy Hl IH]; intros Hx; simpl.
  - constructor; [intros [] | constructor].
  - constructor.
    + rewrite in_app_iff. intros [H|[H|[]]]; [auto|].
      apply Hx. now left.
    + apply IH. intros H. apply Hx. now right.
Qed.

Lemma append_one_NoDup next m :
  NoDup (map identity next) -> NoDup (map identity (append_one next m)).
Proof.
  intros Hnd. unfold append_one.
  destruct (existsb (same_brick m) next) eqn:Hseen; [exact Hnd|].
  rewrite map_app. apply NoDup_snoc; [exact Hnd|].
  intros Hin. apply seen_identity in Hin. congruence.
Qed.

Lemma append_one_keeps next m x :
  In x (map identity next) -> In x (map identity (append_one next m)).
Proof.
  unfold append_one.
  destruct (existsb (same_brick m) next); [auto|].
  rewrite map_app, in_app_iff. auto.
Qed.

Lemma append_one_has next m :
  In (identity m) (map identity (append_one next m)).
Proof.
  unfold append_one.
  destruct (existsb (same_brick m) next) eqn:Hseen.
  - now apply seen_identity.
  - rewrite map_app, in_app_iff. right. now left.
Qed.

Lemma append_new_fold next ms :
  append_new next ms = fold_left append_one ms next.
Proof. reflexivity. Qed.

Lemma append_new_NoDup ms :
  forall next,
    NoDup (map identity next) -> NoDup (map identity (append_new next ms)).
Proof.
  induction ms as [|m ms IH]; intros next Hnd; [exact Hnd|].
  rewrite append_new_fold. simpl. rewrite <- append_new_fold.
  apply IH. now apply append_one_NoDup.
Qed.

Lemma append_new_keeps ms :
  forall next x,
    In x (map identity next) -> In x (map identity (append_new next ms)).
Proof.
  induction ms as [|m ms IH]; intros next x Hx; [exact Hx|].
  rewrite append_new_fold. simpl. rewrite <- append_new_fold.
  apply IH. now apply append_one_keeps.
Qed.

Lemma append_new_has ms :
  forall next m,
    In m ms -> In (identity m) (map identity (append_new next ms)).
Proof.
  induction ms as [|m' ms IH]; intros next m Hm; [destruct Hm|].
  rewrite append_new_fold. simpl. rewrite <- append_new_fold.
  destruct Hm as [->|Hm].
  - apply append_new_keeps, append_one_has.
  - now apply IH.
Qed.

Lemma matching_has node children :
  forall ms child,
    matching node children = Ok ms ->
    In (Some child) children ->
    Brick.name child = node ->
    In (Some child) ms.
Proof.
  induction children as [|[c|] children IH]; intros ms child Hm Hin Hname;
    simpl in *; try easy.
  destruct (matching node children) as [more|e] eqn:Hmore; simpl in Hm;
    [|discriminate].
  injection Hm as <-.
  destruct Hin as [Heq|Hin].
  - injection Heq as ->. rewrite Hname, String.eqb_refl. now left.
  - specialize (IH more child eq_refl Hin Hname).
    destruct (String.eqb (Brick.name c) node); [now right | exact IH].
Qed.

(** The invariant of the loop over the frontier. *)
Lemma descend_invariant self node current :
  forall acc next,
    descend self node current acc = Ok next ->
    NoDup (map identity acc) ->
    NoDup (map identity next)
    /\ (forall x, In x (map identity acc) -> In x (map identity next))
    /\ (forall brick child,
           In brick current ->
           In (Some child) (children_of self brick) ->
           Brick.name child = node ->
           In (identity (Some child)) (map identity next)).
Proof.
  induction current as [|b current IH]; intros acc next Hd Hnd; simpl in Hd.
  - injection Hd as <-. repeat split; [exact Hnd | auto | intros ? ? []].
  - destruct (matching node (children_of self b)) as [ms|e] eqn:Hms;
      simpl in Hd; [|discriminate].
    destruct (IH _ _ Hd (append_new_NoDup ms acc Hnd)) as (H1 & H2 & H3).
    repeat split; [exact H1 | |].
    + intros x Hx. apply H2. now apply append_new_keeps.
    + intros brick child [<-|Hin] Hc Hname.
      * apply H2. apply append_new_has.
        exact (matching_has _ _ Hms Hc Hname).
      * exact (H3 brick child Hin Hc Hname).
Qed.

(** A selection that ends on a brick name ends on a run of [descend]. *)
Lemma select_loop_last self ns n :
  forall current s,
    select_loop self (ns ++ [Path.BrickName n]) current = Ok (Bricks s) ->
    exists frontier, descend self n frontier [] = Ok (bricks s).
Proof.
  induction ns as [|[b|p] ns IH]; intros current s Hs; simpl in Hs.
  - destruct (descend self n current []) as [next|e] eqn:Hd; simpl in Hs;
      [|discriminate].
    injection Hs as <-. exists current. exact Hd.
  - destruct (descend self b current []) as [next|e]; simpl in Hs;
      [|discriminate].
    exact (IH _ _ Hs).
  - destruct (get_params (Selector current) (Some (Path.ParamName p)));
      simpl in Hs; discriminate.
Qed.

End SelectorFacts.

Module SelectorTheorems.
Import Selector SelectorSpec SelectorFacts.

(** C8. Frontier without duplicates: the frontier computed for one brick
    name holds no two references to the same brick, and it does hold every
    child of that name of every member of the old frontier; so a child
    matched through several members is there once, and distinct bricks
    of one name are all there. *)
Theorem descend_frontier_no_duplicates
        (self : Selector.t) (node : string)
        (current next : list (option Brick.t)) :
  descend self node current [] = Ok next ->
  NoDup (map identity next)
  /\ (forall brick child,
         In brick current ->
         In (Some child) (children_of self brick) ->
         Brick.name child = node ->
         In (identity (Some child)) (map identity next)).
Proof.
  intros Hd.
  destruct (descend_invariant self node current [] Hd (NoDup_nil _))
    as (Hnd & _ & Hall).
  split; [exact Hnd | exact Hall].
Qed.

Lemma descend_frontier_no_duplicates_witness :
  descend (Selector [Some Examples.net_left; Some Examples.net_both]) "layer"
          [Some Examples.net_left; Some Examples.net_both] []
  = Ok [Some Examples.layer1; Some Examples.layer2]
  /\ NoDup (map identity [Some Examples.layer1; Some Examples.layer2])
  /\ (forall brick child,
         In brick [Some Examples.net_left; Some Examples.net_both] ->
         In (Some child)
            (children_of (Selector [Some Examples.net_left; Some Examples.net_both])
                         brick) ->
         Brick.name child = "layer"%string ->
         In (identity (Some child))
            (map identity [Some Examples.layer1; Some Examples.layer2])).
Proof.
  split; [reflexivity|].
  apply (@descend_frontier_no_duplicates
           (Selector [Some Examples.net_left; Some Examples.net_both]) "layer"
           [Some Examples.net_left; Some Examples.net_both]
           [Some Examples.layer1; Some Examples.layer2]).
  reflexivity.
Defined.

(** The same for [select] as a whole: when the path ends on a brick name,
    the selector returned has no brick twice. *)
Lemma select_frontier_no_duplicates
      (self : Selector.t) (ns : list Path.node) (n : string) (s : Selector.t) :
  select self (APath (Path.Path (ns ++ [Path.BrickName n]))) = Ok (Bricks s) ->
  NoDup (map identity (bricks s)).
Proof.
  unfold select. simpl. intros Hs.
  destruct (select_loop_last self ns n _ Hs) as [frontier Hd].
  now destruct (descend_invariant self n frontier [] Hd (NoDup_nil _)).
Qed.

(** C10. A path that starts with a parameter name makes [select] fail
    with the [AttributeError] of [None.params], whatever the bricks of
    the selector are: the frontier is still [[None]]; so does every
    string that starts with the parameter separator, [".w"] among
    them. *)
Theorem select_leading_param_raises (self : Selector.t) :
  (forall n rest,
      select self (APath (Path.Path (Path.ParamName n :: rest)))
      = Raise (AttributeError "params"))
  /\ (forall s,
         select self (Str (Path.param_separator ++ s))
         = Raise (AttributeError "params"))
  /\ select self (Str ".w") = Raise (AttributeError "params").
Proof.
  assert (Hstr : forall s,
             select self (Str (Path.param_separator ++ s))
             = Raise (AttributeError "params")).
  { intros s. unfold select.
    destruct (PathFacts.parse_param_first s) as (name & more & ->).
    reflexivity. }
  split; [reflexivity|]. split; [exact Hstr | exact (Hstr "w"%string)].
Qed.

(** C6. With no path [Model.select] returns the selector of the top
    bricks, in their order; [Selector.select] on a path without nodes
    returns the selector of [[None]] instead, through [Model.select] as
    well, and that is never the list of the top bricks. *)
Theorem select_empty_path_returns_sentinel
        (model : Model.t) (self : Selector.t) :
  Model.select model None
  = Ok (Bricks (Selector (map Some (Model.top_bricks model))))
  /\ select self (APath (Path.Path [])) = Ok (Bricks (Selector [None]))
  /\ Model.select model (Some (APath (Path.Path [])))
     = Ok (Bricks (Selector [None]))
  /\ [None] <> map Some (Model.top_bricks model)
  /\ select (Selector [Some Examples.net_left]) (APath (Path.Path []))
     <> Ok (Bricks (Selector [Some Examples.net_left])).
Proof.
  repeat split.
  - destruct (Model.top_bricks model) as [|b l]; simpl; discriminate.
  - discriminate.
Qed.

End SelectorTheorems.

(** ** Dictionaries *)

Section DictFacts.
Variables K V : Type.
Variable eqb : K -> K -> bool.
Hypothesis eqb_refl : forall a, eqb a a = true.
Hypothesis eqb_sym : forall a b, eqb a b = true -> eqb b a = true.
Hypothesis eqb_trans :
  forall a b c, eqb a b = true -> eqb b c = true -> eqb a c = true.

Local Abbreviation dict := (OrderedDict.t K V).
Local Abbreviation contains := (OrderedDict.contains eqb).
Local Abbreviation setitem := (OrderedDict.setitem eqb).
Local Abbreviation update := (OrderedDict.update eqb).
Local Abbreviation keys := (@OrderedDict.keys K V).

Lemma contains_keys (d : dict) (k : K) :
  contains d k = true <-> exists x, In x (keys d) /\ eqb x k = true.
Proof.
  unfold OrderedDict.contains, OrderedDict.keys.
  rewrite existsb_exists. split.
  - intros ([x v] & Hin & Hx). exists x. split; [|exact Hx].
    apply in_map_iff. now exists (x, v).
  - intros (x & Hin & Hx). apply in_map_iff in Hin as ([x' v] & <- & Hin).
    now exists (x', v).
Qed.

Lemma keys_setitem (d : dict) (k : K) (v : V) :
  keys (setitem d k v) = if contains d k then keys d else keys d ++ [k].
Proof.
  induction d as [|[k' v'] d IH]; simpl; [reflexivity|].
  destruct (eqb k' k); simpl; [reflexivity|].
  rewrite IH. now destruct (contains d k).
Qed.

Lemma keys_setitem_incl (d : dict) (k : K) (v : V) (x : K) :
  In x (keys d) -> In x (keys (setitem d k v)).
Proof.
  rewrite keys_setitem. destruct (contains d k); [auto|].
  rewrite in_app_iff. auto.
Qed.

Lemma contains_setitem_new (d : dict) (k : K) (v : V) :
  contains (setitem d k v) k = true.
Proof.
  apply contains_keys. rewrite keys_setitem.
  destruct (contains d k) eqn:Hk.
  - now apply contains_keys.
  - exists k. rewrite in_app_iff. split; [right; now left | apply eqb_refl].
Qed.

Lemma keys_update_incl (other : dict) :
  forall (d : dict) (x : K), In x (keys d) -> In x (keys (update d other)).
Proof.
  induction other as [|[k v] other IH]; intros d x Hx; [exact Hx|].
  apply (IH (setitem d k v)). now apply keys_setitem_incl.
Qed.

Lemma contains_update_l (d other : dict) (k : K) :
  contains d k = true -> contains (update d other) k = true.
Proof.
  rewrite !contains_keys. intros (x & Hin & Hx).
  exists x. split; [now apply keys_update_incl | exact Hx].
Qed.

Lemma contains_update_r (other : dict) :
  forall (d : dict) (k : K),
    contains other k = true -> contains (update d other) k = true.
Proof.
  induction other as [|[k0 v0] other IH]; intros d k Hk; [discriminate|].
  simpl in Hk. apply orb_true_iff in Hk as [Hk|Hk].
  - apply (contains_update_l (setitem d k0 v0) other).
    apply contains_keys.
    destruct (proj1 (contains_keys _ _) (contains_setitem_new d k0 v0))
      as (x & Hin & Hx).
    exists x. split; [exact Hin | exact (eqb_trans Hx Hk)].
  - exact (IH (setitem d k0 v0) k Hk).
Qed.

Lemma collide_contains (d1 d2 : dict) :
  OrderedDict.collide eqb d1 d2 ->
  existsb (fun kv => contains d1 (fst kv)) d2 = true.
Proof.
  intros (k1 & k2 & H1 & H2 & He).
  apply existsb_exists.
  apply in_map_iff in H2 as (kv & <- & Hkv).
  exists kv. split; [exact Hkv|].
  apply contains_keys. now exists k1.
Qed.

Lemma collide_update (acc d d' : dict) :
  OrderedDict.collide eqb acc d' \/ OrderedDict.collide eqb d d' ->
  OrderedDict.collide eqb (update acc d) d'.
Proof.
  intros [(k1 & k2 & H1 & H2 & He)|(k1 & k2 & H1 & H2 & He)].
  - exists k1, k2. repeat split; [|exact H2|exact He].
    now apply keys_update_incl.
  - assert (Hc : contains (update acc d) k1 = true).
    { apply contains_update_r, contains_keys.
      exists k1. split; [exact H1 | apply eqb_refl]. }
    apply contains_keys in Hc as (x & Hin & Hx).
    exists x, k2. repeat split; [exact Hin | exact H2|].
    exact (eqb_trans Hx He).
Qed.

(** The union raises as soon as one dictionary collides with the union
    so far or with a later one. *)
Lemma dict_union_into_collision (ds : list dict) :
  forall acc : dict,
    (exists d, In d ds /\ OrderedDict.collide eqb acc d)
    \/ (exists i j di dj,
           i < j /\ nth_error ds i = Some di /\ nth_error ds j = Some dj
           /\ OrderedDict.collide eqb di dj) ->
    OrderedDict.dict_union_into eqb acc ds = Raise DuplicatePathError.
Proof.
  induction ds as [|d ds IH]; intros acc H.
  - destruct H as [(d & [] & _)|(i & j & di & dj & _ & Hi & _)].
    now destruct i.
  - simpl.
    destruct (existsb (fun kv => contains acc (fst kv)) d) eqn:Hseen;
      [reflexivity|].
    apply IH.
    destruct H as [(d' & [<-|Hin] & Hc)|(i & j & di & dj & Hij & Hi & Hj & Hc)].
    + apply collide_contains in Hc. congruence.
    + left. exists d'. split; [exact Hin|]. apply collide_update. now left.
    + destruct j as [|j]; [lia|]. simpl in Hj.
      destruct i as [|i]; simpl in Hi.
      * injection Hi as <-. left. exists dj.
        split; [exact (nth_error_In _ _ Hj)|]. apply collide_update.
        now right.
      * right. exists i, j, di, dj. repeat split; auto. lia.
Qed.

Lemma keys_fold_setitem (A : Type) (f : A -> K) (g : A -> V) (l : list A) :
  forall (d : dict) (k : K),
    In k (keys (fold_left (fun d a => setitem d (f a) (g a)) l d)) ->
    In k (keys d) \/ In k (map f l).
Proof.
  induction l as [|a l IH]; intros d k Hk; [now left|].
  simpl in Hk. destruct (IH _ _ Hk) as [H|H]; [|right; now right].
  rewrite keys_setitem in H. destruct (contains d (f a)); [now left|].
  apply in_app_iff in H as [H|[H|[]]]; [now left|].
  right. now left.
Qed.

Lemma collide_sym (d1 d2 : dict) :
  OrderedDict.collide eqb d1 d2 -> OrderedDict.collide eqb d2 d1.
Proof.
  intros (k1 & k2 & H1 & H2 & He). exists k2, k1. auto.
Qed.

Lemma setitem_NoDup (d : dict) (k : K) (v : V) :
  NoDup (keys d) -> NoDup (keys (setitem d k v)).
Proof.
  intros Hnd. rewrite keys_setitem.
  destruct (contains d k) eqn:Hk; [exact Hnd|].
  apply SelectorFacts.NoDup_snoc; [exact Hnd|].
  intros Hin.
  assert (contains d k = true); [|congruence].
  apply contains_keys. exists k. split; [exact Hin | apply eqb_refl].
Qed.

Lemma of_pairs_NoDup (pairs : list (K * V)) :
  NoDup (keys (OrderedDict.of_pairs eqb pairs)).
Proof.
  unfold OrderedDict.of_pairs.
  assert (H : forall d : dict,
             NoDup (keys d) ->
             NoDup (keys (fold_left
                            (fun d kv => setitem d (fst kv) (snd kv))
                            pairs d))).
  { induction pairs as [|[k v] pairs IH]; intros d Hd; [exact Hd|].
    apply IH. now apply setitem_NoDup. }
  apply H. constructor.
Qed.

End DictFacts.

(** ** Parameter aggregation *)

Module AggregatorFacts.
Import Selector.

Lemma tuple_eqb_names (a : list Path.node) :
  forall b,
    Path.tuple_eqb a b = true <-> map Path.str_of a = map Path.str_of b.
Proof.
  induction a as [|x a IH]; intros [|y b]; simpl; try (split; congruence).
  unfold Path.node_eqb.
  rewrite andb_true_iff, String.eqb_eq, IH. split.
  - intros [-> ->]. reflexivity.
  - intros H. injection H as Hx Hy. auto.
Qed.

Lemma path_eq_names (p q : Path.t) :
  Path.__eq__ p q = true
  <-> map Path.str_of (Path.nodes p) = map Path.str_of (Path.nodes q).
Proof. apply tuple_eqb_names. Qed.

Lemma path_eq_refl (p : Path.t) : Path.__eq__ p p = true.
Proof. now apply path_eq_names. Qed.

Lemma path_eq_sym (p q : Path.t) :
  Path.__eq__ p q = true -> Path.__eq__ q p = true.
Proof. rewrite !path_eq_names. auto. Qed.

Lemma path_eq_trans (p q r : Path.t) :
  Path.__eq__ p q = true -> Path.__eq__ q r = true -> Path.__eq__ p r = true.
Proof. rewrite !path_eq_names. congruence. Qed.

Lemma recursion_all_roots (param_name : option Path.node)
      (roots : list Brick.t) :
  recursion_all param_name (map Some roots)
  = Ok (map (recursion param_name) roots).
Proof.
  induction roots as [|r roots IH]; simpl; [reflexivity|].
  now rewrite IH.
Qed.

Lemma string_eqb_refl (s : string) : String.eqb s s = true.
Proof. apply String.eqb_refl. Qed.

(** Induction on bricks, with the children. *)
Lemma brick_induction (P : Brick.t -> Prop) :
  (forall id name allocated children params,
      Forall P children -> P (Brick.mk id name allocated children params)) ->
  forall b, P b.
Proof.
  intros Hb. fix IH 1. intros [id name allocated children params].
  apply Hb. revert children. fix go 1. intros [|c rest]; constructor.
  - apply IH.
  - apply go.
Qed.

Lemma recursion_keys_valid (param_name : option Path.node) (b : Brick.t) :
  SelectorSpec.valid_brick b = true ->
  SelectorSpec.valid_keys (recursion param_name b).
Proof.
  induction b as [id name allocated children params IH] using brick_induction.
  intros Hb. simpl in Hb.
  apply andb_true_iff in Hb as [Hb Hchildren].
  apply andb_true_iff in Hb as [Hname Hparams].
  simpl recursion.
  match goal with
  | |- SelectorSpec.valid_keys (fold_left ?step children ?init) =>
      set (body := step); set (result := init)
  end.
  assert (Hresult : SelectorSpec.valid_keys result).
  { intros k Hk. unfold result, OrderedDict.of_pairs in Hk.
    apply keys_fold_setitem in Hk as [[]|Hk].
    rewrite map_map in Hk. apply in_map_iff in Hk as (p & <- & Hp).
    apply filter_In in Hp as [Hp _]. simpl.
    rewrite forallb_forall in Hparams.
    unfold PathSpec.valid_node. simpl.
    now rewrite Hname, (Hparams p Hp). }
  clearbody result. revert result Hresult.
  induction IH as [|child rest Hchild _ IHrest]; intros result Hresult;
    [exact Hresult|].
  simpl in Hchildren. apply andb_true_iff in Hchildren as [Hc Hrest].
  simpl. apply (IHrest Hrest).
  intros k Hk. unfold body in Hk. cbv zeta in Hk.
  apply keys_fold_setitem in Hk as [Hk|Hk]; [now apply Hresult|].
  apply in_map_iff in Hk as ([path param] & <- & Hin). simpl.
  unfold PathSpec.valid_node at 1. simpl. rewrite Hname. simpl.
  apply (Hchild Hc). unfold OrderedDict.keys.
  apply in_map_iff. now exists (path, param).
Qed.

(** Two different roots with equal paths: the union of their
    dictionaries raises. *)
Lemma get_params_collision_raises
      (roots : list Brick.t) (param_name : option Path.node)
      (i j : nat) (bi bj : Brick.t) :
  i <> j ->
  nth_error roots i = Some bi ->
  nth_error roots j = Some bj ->
  OrderedDict.collide Path.__eq__
    (recursion param_name bi) (recursion param_name bj) ->
  get_params (Selector (map Some roots)) param_name
  = Raise DuplicatePathError.
Proof.
  assert (Hlt : forall i j bi bj,
             i < j ->
             nth_error roots i = Some bi ->
             nth_error roots j = Some bj ->
             OrderedDict.collide Path.__eq__
               (recursion param_name bi) (recursion param_name bj) ->
             get_params (Selector (map Some roots)) param_name
             = Raise DuplicatePathError).
  { clear. intros i j bi bj Hij Hi Hj Hc. unfold get_params. simpl bricks.
    rewrite recursion_all_roots. simpl. unfold OrderedDict.dict_union.
    assert (Hr : OrderedDict.dict_union_into Path.__eq__ []
                   (map (recursion param_name) roots)
                 = Raise DuplicatePathError); [|now rewrite Hr].
    apply dict_union_into_collision;
      [exact path_eq_refl | exact path_eq_trans |].
    right. exists i, j, (recursion param_name bi), (recursion param_name bj).
    repeat split; [exact Hij | | | exact Hc].
    - now rewrite nth_error_map, Hi.
    - now rewrite nth_error_map, Hj. }
  intros Hij Hi Hj Hc.
  destruct (Nat.lt_total i j) as [Hlt'|[Heq|Hgt]]; [|contradiction|].
  - exact (Hlt i j bi bj Hlt' Hi Hj Hc).
  - apply (Hlt j i bj bi Hgt Hj Hi).
    apply collide_sym; [exact path_eq_sym | exact Hc].
Qed.

(** Trees of name tokens: the same full-path string is the same path. *)
Lemma full_paths_collide (param_name : option Path.node) (bi bj : Brick.t)
      (key : string) :
  SelectorSpec.valid_brick bi = true ->
  SelectorSpec.valid_brick bj = true ->
  In key (SelectorSpec.full_paths param_name bi) ->
  In key (SelectorSpec.full_paths param_name bj) ->
  OrderedDict.collide Path.__eq__
    (recursion param_name bi) (recursion param_name bj).
Proof.
  intros Hbi Hbj Hi Hj. unfold SelectorSpec.full_paths in Hi, Hj.
  apply in_map_iff in Hi as (ki & Hsi & Hi).
  apply in_map_iff in Hj as (kj & Hsj & Hj).
  exists ki, kj. repeat split; [exact Hi | exact Hj|].
  rewrite (PathTheorems.str_injective ki kj); [apply path_eq_refl | | |].
  - exact (recursion_keys_valid param_name bi Hbi ki Hi).
  - exact (recursion_keys_valid param_name bj Hbj kj Hj).
  - congruence.
Qed.

End AggregatorFacts.

Module AggregatorTheorems.
Import Selector AggregatorFacts.

(** C4.  One root with two siblings of the same name,
    each with its own parameter [w]: both parameters get the key
    ["/net/layer.w"], no error is raised, and the mapping returned holds
    the parameter of the second sibling only.  And two roots, a brick
    named ["a/b"] and a brick [a] with a child [b]: their parameters
    both get the key ["/a/b.w"], the paths differ, and again the second
    silently wins. *)
Lemma get_params_same_key_overwrites :
  Examples.w1 <> Examples.w2
  /\ SelectorSpec.full_paths None Examples.net_both = ["/net/layer.w"%string]
  /\ get_params (Selector [Some Examples.net_both]) None
     = Ok [("/net/layer.w"%string, Examples.w2)]
  /\ SelectorSpec.full_paths None Examples.slashed = ["/a/b.w"%string]
  /\ SelectorSpec.full_paths None Examples.nested = ["/a/b.w"%string]
  /\ get_params (Selector [Some Examples.slashed; Some Examples.nested]) None
     = Ok [("/a/b.w"%string, Examples.w2)].
Proof. split; [discriminate | repeat split]. Qed.

(** Across roots the check is made: when two different roots of the
    selection, with no separator character in the names of their bricks
    and parameters,
    yield the same full-path string, [get_params] raises the error of
    [dict_union] and returns no mapping; and whatever mapping
    [get_params] returns has no string key twice. *)
Theorem get_params_cross_root_collision_raises :
  (forall (roots : list Brick.t) (param_name : option Path.node)
          (i j : nat) (bi bj : Brick.t) (key : string),
      i <> j ->
      nth_error roots i = Some bi ->
      nth_error roots j = Some bj ->
      SelectorSpec.valid_brick bi = true ->
      SelectorSpec.valid_brick bj = true ->
      In key (SelectorSpec.full_paths param_name bi) ->
      In key (SelectorSpec.full_paths param_name bj) ->
      get_params (Selector (map Some roots)) param_name
      = Raise DuplicatePathError)
  /\ (forall (self : Selector.t) (param_name : option Path.node)
             (mapping : OrderedDict.t string Param.t),
         get_params self param_name = Ok mapping ->
         NoDup (OrderedDict.keys mapping)).
Proof.
  split.
  - intros roots param_name i j bi bj key Hij Hi Hj Hbi Hbj Hki Hkj.
    apply (get_params_collision_raises roots param_name Hij Hi Hj).
    exact (full_paths_collide param_name bi bj key Hbi Hbj Hki Hkj).
  - intros self param_name mapping H. unfold get_params in H.
    destruct (recursion_all param_name (bricks self)) as [dicts|e];
      simpl in H; [|discriminate].
    destruct (OrderedDict.dict_union Path.__eq__ dicts) as [result|e];
      simpl in H; [|discriminate].
    injection H as <-. apply of_pairs_NoDup. exact string_eqb_refl.
Qed.

Lemma get_params_cross_root_collision_raises_witness :
  get_params (Selector (map Some [Examples.net_left; Examples.net_right])) None
  = Raise DuplicatePathError
  /\ NoDup (OrderedDict.keys [("/net/layer.w"%string, Examples.w2)]).
Proof.
  split.
  - apply (proj1 get_params_cross_root_collision_raises
             [Examples.net_left; Examples.net_right] None 0 1
             Examples.net_left Examples.net_right "/net/layer.w"%string);
      [discriminate | reflexivity | reflexivity | reflexivity | reflexivity
      | now left | now left].
  - apply (proj2 get_params_cross_root_collision_raises
             (Selector [Some Examples.net_both]) None).
    reflexivity.
Defined.

End AggregatorTheorems.

(** ** The variables of the cost graph *)

Module ModelFacts.
Import ModelSpec.

Lemma recursion_owner (id : nat) (cls : Var.class) (inputs : list Var.t)
      (variables : Var.set) :
  Model.recursion (Var.mk id cls (Some inputs)) variables
  = inputs_loop inputs None variables.
Proof.
  simpl. generalize (@None Var.t). revert variables.
  induction inputs as [|i rest IH]; intros variables inp; [reflexivity|].
  simpl. destruct (negb (Var.mem i variables)).
  - destruct (Model.recursion i variables) as [variables'|e]; simpl;
      [apply IH | reflexivity].
  - apply IH.
Qed.

Lemma recursion_leaf (v : Var.t) (variables : Var.set) :
  is_leaf v = true -> Model.recursion v variables = Ok variables.
Proof.
  destruct v as [id cls [inputs|]]; [discriminate | reflexivity].
Qed.

(** Over leaves the loop adds nothing but the last of them. *)
Lemma inputs_loop_leaves (inputs : list Var.t) :
  forall (inp : option Var.t) (last : Var.t) (variables : Var.set),
    forallb is_leaf inputs = true ->
    inputs_loop (inputs ++ [last]) inp variables
    = (if negb (Var.mem last variables)
       then variables' <- Model.recursion last variables ;;
            Ok (Var.add last variables')
       else Ok (Var.add last variables)).
Proof.
  induction inputs as [|i rest IH]; intros inp last variables Hl;
    [reflexivity|].
  simpl in Hl. apply andb_true_iff in Hl as [Hi Hl]. simpl.
  rewrite (recursion_leaf i variables Hi). simpl.
  destruct (negb (Var.mem i variables)); now apply IH.
Qed.

(** An operation on leaves only: the variables found are the last input
    alone. *)
Lemma get_variables_of_leaves (id : nat) (cls : Var.class)
      (inputs : list Var.t) (last : Var.t) :
  forallb is_leaf (inputs ++ [last]) = true ->
  Model._get_variables (Var.mk id cls (Some (inputs ++ [last])))
  = Ok ([last], filter Model.is_input [last]).
Proof.
  intros Hl. rewrite forallb_app in Hl.
  apply andb_true_iff in Hl as [Hl Hlast]. simpl in Hlast.
  rewrite andb_true_r in Hlast.
  unfold Model._get_variables.
  rewrite recursion_owner, (inputs_loop_leaves inputs None last [] Hl).
  simpl negb. cbv iota. rewrite (recursion_leaf last [] Hlast). reflexivity.
Qed.

(** An operation without inputs leaves [inp] unbound. *)
Lemma get_variables_no_inputs (id : nat) (cls : Var.class) :
  Model._get_variables (Var.mk id cls (Some []))
  = Raise (UnboundLocalError "inp").
Proof. reflexivity. Qed.

(** Induction on variables, with the inputs of the owner. *)
Lemma var_induction (P : Var.t -> Prop) :
  (forall id cls, P (Var.mk id cls None)) ->
  (forall id cls inputs, Forall P inputs -> P (Var.mk id cls (Some inputs))) ->
  forall v, P v.
Proof.
  intros Hleaf Hop. fix IH 1. intros [id cls [inputs|]]; [|apply Hleaf].
  apply Hop. revert inputs. fix go 1. intros [|i rest]; constructor.
  - apply IH.
  - apply go.
Qed.

Lemma reachable_self (v : Var.t) : In v (GraphSpec.reachable v).
Proof. destruct v as [id cls [inputs|]]; now left. Qed.

Lemma in_add (u inp : Var.t) (variables : Var.set) :
  In u (Var.add inp variables) -> In u variables \/ u = inp.
Proof.
  unfold Var.add. destruct (Var.mem inp variables); [auto|].
  rewrite in_app_iff. intros [H|[H|[]]]; auto.
Qed.

Lemma inputs_loop_sound (inputs : list Var.t) :
  Forall adds_reachable inputs ->
  forall inp variables variables',
    inputs_loop inputs inp variables = Ok variables' ->
    forall u, In u variables' ->
              In u variables
              \/ In u (flat_map GraphSpec.reachable inputs)
              \/ inp = Some u.
Proof.
  induction 1 as [|i rest Hi _ IH]; intros inp variables variables' Hl u Hu;
    simpl in Hl.
  - destruct inp as [inp|]; [|discriminate]. injection Hl as <-.
    destruct (in_add _ _ _ Hu) as [H| ->]; auto.
  - simpl. rewrite in_app_iff.
    destruct (negb (Var.mem i variables)).
    + destruct (Model.recursion i variables) as [variables1|e] eqn:Hr;
        simpl in Hl; [|discriminate].
      destruct (IH _ _ _ Hl u Hu) as [H|[H|H]]; [|auto|].
      * destruct (Hi _ _ Hr u H); auto.
      * injection H as <-. right. left. left. apply reachable_self.
    + destruct (IH _ _ _ Hl u Hu) as [H|[H|H]]; auto.
      injection H as <-. right. left. left. apply reachable_self.
Qed.

Lemma recursion_sound (v : Var.t) : adds_reachable v.
Proof.
  induction v as [id cls|id cls inputs IH] using var_induction;
    intros variables variables' Hr u Hu.
  - injection Hr as <-. now left.
  - rewrite recursion_owner in Hr.
    destruct (inputs_loop_sound IH _ _ Hr u Hu) as [H|[H|H]];
      [now left | right; now right | discriminate].
Qed.

(** Whatever is found is reachable from the cost, and the input variables
    are free inputs. *)
Lemma get_variables_sound (cost : Var.t) (variables : Var.set)
      (input_variables : list Var.t) :
  Model._get_variables cost = Ok (variables, input_variables) ->
  (forall u, In u variables -> In u (GraphSpec.reachable cost))
  /\ (forall u, In u input_variables ->
                In u (GraphSpec.reachable cost) /\ Model.is_input u = true).
Proof.
  unfold Model._get_variables. intros H.
  destruct (Model.recursion cost []) as [vs|e] eqn:Hr; simpl in H;
    [|discriminate].
  injection H as <- <-.
  assert (Hv : forall u, In u vs -> In u (GraphSpec.reachable cost)).
  { intros u Hu. destruct (recursion_sound cost _ Hr u Hu) as [[]|H].
    exact H. }
  split; [exact Hv|].
  intros u Hu. apply filter_In in Hu as [Hu Hin]. auto.
Qed.

End ModelFacts.

Module ModelTheorems.
Import Examples.

(** C1. On the cost [f(a, b, c)] the set of variables computed at
    construction is [{c}], the last input alone: of the four nodes
    reachable from the cost, [a], [b] and the [f] node itself are
    missing. *)
Theorem variables_of_f_is_last_input :
  Model._get_variables f = Ok ([c], [c])
  /\ Model.__init__ [] f = Ok (Model.Model [] f [c] [c])
  /\ GraphSpec.reachable f = [f; a; b; c]
  /\ Var.mem f [c] = false
  /\ Var.mem a [c] = false
  /\ Var.mem b [c] = false.
Proof. repeat split. Qed.

(** C2. On the cost [g(x, a)] the free input [x] is a reachable leaf that
    passes [is_input], yet the input variables computed at construction
    are empty: the variables are [{a}], and [a] is shared state. *)
Theorem input_variables_of_g_is_empty :
  Model._get_variables g = Ok ([a], [])
  /\ Model.__init__ [] g = Ok (Model.Model [] g [a] [])
  /\ In x (GraphSpec.reachable g)
  /\ Model.is_input x = true.
Proof. repeat split. right. now left. Qed.

End ModelTheorems.

(** * More of the code *)

(** ** Paths: string form, concatenation, equality *)

Module PathLaws.
Import Path PathSpec PathFacts PathTheorems.

Lemma append_assoc (a b c : string) :
  ((a ++ b) ++ c)%string = (a ++ b ++ c)%string.
Proof. induction a as [|x a IH]; simpl; [reflexivity | now rewrite IH]. Qed.

Lemma concat_app (l1 l2 : list string) :
  String.concat EmptyString (l1 ++ l2)
  = (String.concat EmptyString l1 ++ String.concat EmptyString l2)%string.
Proof.
  induction l1 as [|x l1 IH]; [reflexivity|].
  rewrite <- app_comm_cons, !concat_cons, IH, append_assoc. reflexivity.
Qed.

Lemma str_of_nodes_app (ns ms : list node) :
  __str__ (Path (ns ++ ms)) = (__str__ (Path ns) ++ __str__ (Path ms))%string.
Proof. unfold __str__. simpl nodes. now rewrite map_app, concat_app. Qed.

(** X1. The string form of a concatenation of paths is the
    concatenation of their string forms, and the empty path is neutral
    on both sides. *)
Theorem str_add (p q : Path.t) :
  __str__ (__add__ p q) = (__str__ p ++ __str__ q)%string
  /\ __add__ (Path []) p = p
  /\ __add__ p (Path []) = p
  /\ __str__ (Path []) = EmptyString.
Proof.
  destruct p as [ns], q as [ms]. repeat split.
  - apply str_of_nodes_app.
  - unfold __add__. simpl. now rewrite app_nil_r.
Qed.

(** X2. [__eq__] is an equivalence of paths, it holds exactly when the
    two sequences of names are the same, equal paths have equal hashes,
    and concatenation respects it. *)
Theorem eq_equivalence_hash
        (str_hash : string -> Z) (tuple_hash : list Z -> Z) :
  (forall p, __eq__ p p = true)
  /\ (forall p q, __eq__ p q = true -> __eq__ q p = true)
  /\ (forall p q r,
         __eq__ p q = true -> __eq__ q r = true -> __eq__ p r = true)
  /\ (forall p q,
         __eq__ p q = true
         <-> map str_of (nodes p) = map str_of (nodes q))
  /\ (forall p q,
         __eq__ p q = true ->
         __hash__ str_hash tuple_hash p = __hash__ str_hash tuple_hash q)
  /\ (forall p p' q q',
         __eq__ p p' = true -> __eq__ q q' = true ->
         __eq__ (__add__ p q) (__add__ p' q') = true).
Proof.
  repeat split.
  - apply AggregatorFacts.path_eq_refl.
  - apply AggregatorFacts.path_eq_sym.
  - apply AggregatorFacts.path_eq_trans.
  - apply AggregatorFacts.path_eq_names.
  - apply AggregatorFacts.path_eq_names.
  - intros p q H. apply AggregatorFacts.path_eq_names in H.
    unfold __hash__, node_hash.
    now rewrite <- (map_map str_of str_hash), H, map_map.
  - intros p p' q q' Hp Hq.
    apply AggregatorFacts.path_eq_names in Hp, Hq.
    apply AggregatorFacts.path_eq_names. unfold __add__. simpl nodes.
    now rewrite !map_app, Hp, Hq.
Qed.

Lemma eq_equivalence_hash_witness :
  __eq__ (Path [ParamName "w"]) (Path [BrickName "w"]) = true
  /\ __hash__ (fun s => Z.of_nat (String.length s)) (fun l => fold_right Z.add 0%Z l)
       (Path [BrickName "w"])
     = __hash__ (fun s => Z.of_nat (String.length s)) (fun l => fold_right Z.add 0%Z l)
         (Path [ParamName "w"])
  /\ __eq__ (__add__ (Path [BrickName "a"]) (Path [BrickName "w"]))
            (__add__ (Path [BrickName "a"]) (Path [ParamName "w"])) = true.
Proof.
  destruct (eq_equivalence_hash
              (fun s => Z.of_nat (String.length s))
              (fun l => fold_right Z.add 0%Z l))
    as (Hrefl & Hsym & _ & _ & Hhash & Hadd).
  split; [|split].
  - apply Hsym. reflexivity.
  - apply Hhash. reflexivity.
  - apply Hadd; reflexivity.
Defined.

Lemma is_separator_cases (c : ascii) :
  is_separator c = true ->
  String c EmptyString = separator \/ String c EmptyString = param_separator.
Proof.
  unfold is_separator, separator_class. simpl. rewrite !orb_true_iff.
  intros [H|[H|H]]; [| |discriminate]; apply Ascii.eqb_eq in H; subst; auto.
Qed.

Lemma parse_of_split (s t : string) (ns : list node) :
  re_split s = t :: flat_map (fun n => [separator_of n; str_of n]) ns ->
  parse s = Ok (Path ns).
Proof.
  intros Hs. rewrite parse_unfold, Hs. unfold slice_from1. simpl tl.
  rewrite slice_even_interleave, slice_odd_interleave.
  now rewrite parse_loop_nodes.
Qed.

(** Every string is some text without separator followed by the string
    form of valid nodes, which its split lists. *)
Lemma re_split_nodes (s : string) :
  exists t ns,
    re_split s = t :: flat_map (fun n => [separator_of n; str_of n]) ns
    /\ valid_name t = true
    /\ forallb valid_node ns = true
    /\ s = (t ++ String.concat EmptyString (map part ns))%string.
Proof.
  induction s as [|c s (t & ns & Hs & Ht & Hns & Heq)].
  - exists EmptyString, []. repeat split.
  - simpl re_split. destruct (is_separator c) eqn:Hc.
    + destruct (is_separator_cases c Hc) as [Hsep|Hsep];
        [unfold separator in Hsep | unfold param_separator in Hsep];
        injection Hsep as ->;
        [exists EmptyString, (BrickName t :: ns)
        |exists EmptyString, (ParamName t :: ns)];
        rewrite Hs; (repeat split);
        try (simpl; unfold valid_node at 1; simpl; now rewrite Ht);
        match goal with
        | |- context [map part (?n :: ns)] =>
            change (map part (n :: ns)) with (part n :: map part ns)
        end;
        rewrite concat_cons; simpl; now rewrite <- Heq.
    + rewrite Hs. exists (String c t), ns. repeat split; [| exact Hns |].
      * unfold valid_name in *. simpl. now rewrite Hc, Ht.
      * simpl. now rewrite <- Heq.
Qed.

Lemma parse_shape (s : string) :
  exists t ns,
    parse s = Ok (Path ns)
    /\ valid_name t = true
    /\ forallb valid_node ns = true
    /\ s = (t ++ __str__ (Path ns))%string.
Proof.
  destruct (re_split_nodes s) as (t & ns & Hs & Ht & Hns & Heq).
  exists t, ns. repeat split; [exact (@parse_of_split s t ns Hs)|exact Ht|exact Hns|].
  exact Heq.
Qed.

Lemma valid_prefix_empty (t rest : string) :
  valid_name t = true ->
  begins_with_separator (t ++ rest) = true ->
  t = EmptyString.
Proof.
  destruct t as [|c t]; [reflexivity|]. unfold valid_name. simpl.
  intros Ht Hb. rewrite Hb in Ht. discriminate.
Qed.

Lemma parse_drop_prefix (t s : string) :
  valid_name t = true -> parse (t ++ s) = parse s.
Proof.
  intros Ht. rewrite !parse_unfold.
  destruct (re_split_shape s) as (text & more & Hs & _).
  now rewrite (re_split_text t s Ht Hs), Hs.
Qed.

(** X3. [parse] undoes [__str__] from the other side as well: every
    string is parsed to a path of names without separator characters
    whose string form is the string itself, less the text before its
    first separator; a string that begins with a separator is given back
    whole. *)
Theorem str_parse_inverse (s : string) :
  exists p t,
    parse s = Ok p
    /\ forallb valid_node (nodes p) = true
    /\ valid_name t = true
    /\ s = (t ++ __str__ p)%string
    /\ (begins_with_separator s = true -> __str__ p = s).
Proof.
  destruct (parse_shape s) as (t & ns & Hp & Ht & Hns & Heq).
  exists (Path ns), t. repeat split; try assumption.
  intros Hb. rewrite Heq in Hb.
  rewrite (valid_prefix_empty t _ Ht Hb) in Heq. now rewrite Heq.
Qed.

Lemma str_parse_inverse_witness :
  exists p t,
    parse "/mlp/linear.W" = Ok p
    /\ forallb valid_node (nodes p) = true
    /\ valid_name t = true
    /\ "/mlp/linear.W"%string = (t ++ __str__ p)%string
    /\ __str__ p = "/mlp/linear.W"%string.
Proof.
  destruct (str_parse_inverse "/mlp/linear.W")
    as (p & t & Hp & Hv & Ht & Heq & Hb).
  exists p, t. repeat split; try assumption. apply Hb. reflexivity.
Defined.

(** X4. Parsing follows concatenation: when the second string begins
    with a separator, the path of the two strings put together is the
    path of the first plus the path of the second. *)
Theorem parse_append (s1 s2 : string) (p1 p2 : Path.t) :
  begins_with_separator s2 = true ->
  parse s1 = Ok p1 ->
  parse s2 = Ok p2 ->
  parse (s1 ++ s2) = Ok (__add__ p1 p2).
Proof.
  intros Hb H1 H2.
  destruct (parse_shape s1) as (t1 & ns1 & Hp1 & Ht1 & Hns1 & Heq1).
  destruct (parse_shape s2) as (t2 & ns2 & Hp2 & Ht2 & Hns2 & Heq2).
  rewrite Hp1 in H1. rewrite Hp2 in H2.
  injection H1 as <-. injection H2 as <-.
  assert (Ht2e : t2 = EmptyString).
  { rewrite Heq2 in Hb. exact (valid_prefix_empty t2 _ Ht2 Hb). }
  subst t2. simpl in Heq2.
  rewrite Heq1, Heq2, append_assoc, <- str_of_nodes_app.
  rewrite (@parse_drop_prefix t1 _ Ht1).
  unfold __add__. simpl nodes. apply parse_str_valid.
  now rewrite forallb_app, Hns1, Hns2.
Qed.

Lemma parse_append_witness :
  parse ("/mlp/linear" ++ ".W")
  = Ok (__add__ (Path [BrickName "mlp"; BrickName "linear"])
                (Path [ParamName "W"])).
Proof.
  apply (@parse_append "/mlp/linear" ".W"
           (Path [BrickName "mlp"; BrickName "linear"])
           (Path [ParamName "W"])); reflexivity.
Defined.

End PathLaws.

(** ** Selections by brick names *)

Unset Implicit Arguments.

Module SelectorLaws.
Import Selector SelectorSpec SelectorFacts.

Lemma matching_real (node : string) (l : list Brick.t) :
  matching node (map Some l)
  = Ok (map Some (filter (fun c => String.eqb (Brick.name c) node) l)).
Proof.
  induction l as [|c l IH]; [reflexivity|].
  simpl. rewrite IH. simpl.
  now destruct (String.eqb (Brick.name c) node).
Qed.

Lemma children_of_real (self : Selector.t) (roots : list Brick.t)
      (brick : option Brick.t) :
  bricks self = map Some roots ->
  children_of self brick = map Some (children_list roots brick).
Proof. intros Hr. destruct brick; [reflexivity | exact Hr]. Qed.

Lemma append_one_from next m x :
  In x (append_one next m) -> In x next \/ x = m.
Proof.
  unfold append_one. destruct (existsb (same_brick m) next); [auto|].
  rewrite in_app_iff. intros [H|[H|[]]]; auto.
Qed.

Lemma append_new_from ms :
  forall next x, In x (append_new next ms) -> In x next \/ In x ms.
Proof.
  induction ms as [|m ms IH]; intros next x Hx; [now left|].
  rewrite append_new_fold in Hx. simpl in Hx. rewrite <- append_new_fold in Hx.
  destruct (IH _ _ Hx) as [H|H]; [|right; now right].
  destruct (append_one_from _ _ _ H) as [H'| ->]; [now left|].
  right. now left.
Qed.

(** Over real bricks the loop over the frontier does not fail, and what
    it adds are children of the frontier with the name asked for. *)
Lemma descend_real (self : Selector.t) (roots : list Brick.t) (node : string) :
  bricks self = map Some roots ->
  forall current acc,
  exists next,
    descend self node current acc = Ok next
    /\ forall m, In m next ->
                 In m acc
                 \/ exists c child,
                     In c current /\ m = Some child
                     /\ In child (children_list roots c)
                     /\ Brick.name child = node.
Proof.
  intros Hr. induction current as [|c current IH]; intros acc.
  - exists acc. split; [reflexivity | auto].
  - simpl. rewrite (children_of_real self roots c Hr), matching_real. simpl.
    destruct (IH (append_new acc
                    (map Some
                       (filter (fun c => String.eqb (Brick.name c) node)
                               (children_list roots c)))))
      as (next & Hd & Hnext).
    exists next. split; [exact Hd|].
    intros m Hm. destruct (Hnext m Hm) as [H|(c' & child & Hc' & H)].
    + destruct (append_new_from _ _ _ H) as [H'|H']; [now left|].
      apply in_map_iff in H' as (child & <- & Hchild).
      apply filter_In in Hchild as [Hin Hname].
      apply String.eqb_eq in Hname.
      right. exists c, child. repeat split; simpl; auto.
    + right. exists c', child. destruct H as (H1 & H2 & H3).
      repeat split; simpl; auto.
Qed.

Lemma select_loop_real (self : Selector.t) (roots : list Brick.t) :
  bricks self = map Some roots ->
  forall names current,
    names <> [] ->
    exists frontier,
      select_loop self (map Path.BrickName names) current
      = Ok (Bricks (Selector frontier))
      /\ forall m, In m frontier ->
                   exists b c,
                     m = Some b /\ In c current
                     /\ at_path (children_list roots c) names b.
Proof.
  intros Hr. induction names as [|n names IH]; intros current Hne;
    [contradiction|].
  simpl map. simpl select_loop.
  destruct (descend_real self roots n Hr current []) as (next & Hd & Hnext).
  rewrite Hd. simpl.
  destruct names as [|n' names].
  - exists next. split; [reflexivity|].
    intros m Hm. destruct (Hnext m Hm) as [[]|(c & child & Hc & -> & Hin & Hn)].
    exists child, c. repeat split; auto.
  - destruct (IH next) as (frontier & Hs & Hfrontier); [discriminate|].
    exists frontier. split; [exact Hs|].
    intros m Hm. destruct (Hfrontier m Hm) as (b & c' & -> & Hc' & Hat).
    destruct (Hnext c' Hc') as [[]|(c & parent & Hc & -> & Hin & Hn)].
    exists b, c. repeat split; auto.
    exists parent. repeat split; auto.
Qed.

Lemma select_loop_after_param (self : Selector.t) (n : string)
      (rest : list Path.node) (front : list Path.node) :
  forall current,
    select_loop self (front ++ Path.ParamName n :: rest) current
    = select_loop self (front ++ [Path.ParamName n]) current.
Proof.
  induction front as [|[b|p] front IH]; intros current; simpl;
    try reflexivity.
  destruct (descend self b current []) as [next|e]; simpl;
    [apply IH | reflexivity].
Qed.

Lemma select_loop_param_result (self : Selector.t) (n : string)
      (front : list Path.node) :
  forall current r,
    select_loop self (front ++ [Path.ParamName n]) current = Ok r ->
    exists l, r = Params l.
Proof.
  induction front as [|[b|p] front IH]; intros current r Hr; simpl in Hr.
  - destruct (get_params (Selector current) (Some (Path.ParamName n)));
      simpl in Hr; [|discriminate]. injection Hr as <-. eauto.
  - destruct (descend self b current []) as [next|e]; simpl in Hr;
      [exact (IH _ _ Hr) | discriminate].
  - destruct (get_params (Selector current) (Some (Path.ParamName p)));
      simpl in Hr; [|discriminate]. injection Hr as <-. eauto.
Qed.

(** X5. The walk of [select] stops at the first parameter name: the
    nodes that follow it change nothing to the outcome, and when that
    outcome is not an error it is a list of parameters. *)
Theorem select_stops_at_param (self : Selector.t) (front rest : list Path.node)
        (n : string) :
  select self (APath (Path.Path (front ++ Path.ParamName n :: rest)))
  = select self (APath (Path.Path (front ++ [Path.ParamName n])))
  /\ forall r,
      select self (APath (Path.Path (front ++ Path.ParamName n :: rest)))
      = Ok r ->
      exists l, r = Params l.
Proof.
  unfold select. simpl. split.
  - apply select_loop_after_param.
  - intros r Hr. rewrite select_loop_after_param in Hr.
    exact (select_loop_param_result self n front _ r Hr).
Qed.

Lemma select_stops_at_param_witness :
  select (Selector [Some Examples.net_left])
         (APath (Path.Path ([Path.BrickName "net"; Path.BrickName "layer"]
                            ++ Path.ParamName "w" :: [Path.BrickName "x"])))
  = Ok (Params [Examples.w1])
  /\ exists l, Params [Examples.w1] = Params l.
Proof.
  split; [reflexivity|].
  apply (proj2 (select_stops_at_param
                  (Selector [Some Examples.net_left])
                  [Path.BrickName "net"; Path.BrickName "layer"]
                  [Path.BrickName "x"] "w")).
  reflexivity.
Defined.

(** X6. Over real bricks a path of brick names, at least one, never
    makes [select] fail: it returns a selector, and each of its bricks is
    found from the bricks of the selection along a chain of children
    that bear the names of the path, in order. *)
Theorem select_bricks_at_path (self : Selector.t) (roots : list Brick.t)
        (names : list string) :
  bricks self = map Some roots ->
  names <> [] ->
  exists frontier,
    select self (APath (Path.Path (map Path.BrickName names)))
    = Ok (Bricks (Selector frontier))
    /\ forall m, In m frontier ->
                 exists b, m = Some b /\ at_path roots names b.
Proof.
  intros Hr Hne. unfold select. simpl.
  destruct (select_loop_real self roots Hr names [None] Hne)
    as (frontier & Hs & Hfrontier).
  exists frontier. split; [exact Hs|].
  intros m Hm. destruct (Hfrontier m Hm) as (b & c & -> & [<-|[]] & Hat).
  exists b. split; [reflexivity | exact Hat].
Qed.

Lemma select_bricks_at_path_witness :
  exists frontier,
    select (Selector [Some Examples.net_left; Some Examples.net_both])
           (APath (Path.Path (map Path.BrickName ["net"; "layer"]%string)))
    = Ok (Bricks (Selector frontier))
    /\ forall m, In m frontier ->
                 exists b,
                   m = Some b
                   /\ at_path [Examples.net_left; Examples.net_both]
                              ["net"; "layer"]%string b.
Proof.
  apply (select_bricks_at_path
           (Selector [Some Examples.net_left; Some Examples.net_both])
           [Examples.net_left; Examples.net_both]
           ["net"; "layer"]%string).
  - reflexivity.
  - discriminate.
Defined.

Lemma select_loop_empty (self : Selector.t) (nodes : list Path.node) :
  exists r,
    select_loop self nodes [] = Ok r
    /\ (r = Bricks (Selector []) \/ r = Params []).
Proof.
  induction nodes as [|[b|p] nodes IH].
  - exists (Bricks (Selector [])). split; [reflexivity | now left].
  - exact IH.
  - exists (Params []). split; [reflexivity | now right].
Qed.

(** X7. A first name that none of the bricks of the selection bears
    gives an empty outcome and no error, whatever follows in the path:
    an empty selector, or an empty list of parameters when the path goes
    on to a parameter name. *)
Theorem select_unknown_name_empty (self : Selector.t) (roots : list Brick.t)
        (n : string) (rest : list Path.node) :
  bricks self = map Some roots ->
  (forall b, In b roots -> Brick.name b <> n) ->
  exists r,
    select self (APath (Path.Path (Path.BrickName n :: rest))) = Ok r
    /\ (r = Bricks (Selector []) \/ r = Params []).
Proof.
  intros Hr Hn. unfold select. simpl. rewrite Hr, matching_real.
  assert (Hf : filter (fun c => String.eqb (Brick.name c) n) roots = []).
  { clear Hr. induction roots as [|b roots IH]; [reflexivity|].
    simpl. destruct (String.eqb (Brick.name b) n) eqn:Hb.
    - apply String.eqb_eq in Hb. exfalso. apply (Hn b); [now left | exact Hb].
    - apply IH. intros b' Hb'. apply Hn. now right. }
  rewrite Hf. simpl. apply select_loop_empty.
Qed.

Lemma select_unknown_name_empty_witness :
  exists r,
    select (Selector (map Some [Examples.net_left]))
           (APath (Path.Path (Path.BrickName "mlp"
                              :: [Path.BrickName "layer"; Path.ParamName "w"])))
    = Ok r
    /\ (r = Bricks (Selector []) \/ r = Params []).
Proof.
  apply (select_unknown_name_empty
           (Selector (map Some [Examples.net_left])) [Examples.net_left]).
  - reflexivity.
  - intros b [<-|[]]. discriminate.
Defined.

Lemma str_nonempty (p : Path.t) :
  Path.nodes p <> [] -> String.eqb (Path.__str__ p) EmptyString = false.
Proof.
  destruct p as [[|[n|n] ns]]; [contradiction| |]; intros _;
    unfold Path.__str__; simpl Path.nodes;
    change (map Path.part (?x :: ns)) with (Path.part x :: map Path.part ns);
    rewrite PathTheorems.concat_cons; reflexivity.
Qed.

(** X8. A path of names without separator characters selects the same
    whether it is given as a [Path] or as its string form; through
    [Model.select] as well, provided the path has a node. *)
Theorem select_str_as_path (p : Path.t) :
  forallb PathSpec.valid_node (Path.nodes p) = true ->
  (forall self,
      select self (Str (Path.__str__ p)) = select self (APath p))
  /\ (Path.nodes p <> [] ->
      forall model,
        Model.select model (Some (Str (Path.__str__ p)))
        = Model.select model (Some (APath p))).
Proof.
  intros Hp.
  assert (Hs : forall self,
             select self (Str (Path.__str__ p)) = select self (APath p)).
  { intros self. unfold select. destruct p as [ns].
    now rewrite (PathTheorems.parse_str_valid ns Hp). }
  split; [exact Hs|].
  intros Hne model. unfold Model.select, Model.truthy.
  rewrite (str_nonempty p Hne). simpl. apply Hs.
Qed.

Lemma select_str_as_path_witness :
  select (Selector [Some Examples.net_left]) (Str "/net/layer.w")
  = select (Selector [Some Examples.net_left])
           (APath (Path.Path [Path.BrickName "net"; Path.BrickName "layer";
                              Path.ParamName "w"])).
Proof.
  apply (proj1 (select_str_as_path
                  (Path.Path [Path.BrickName "net"; Path.BrickName "layer";
                              Path.ParamName "w"])
                  eq_refl)).
Defined.

Lemma NoDup_map_some (A : Type) (l : list A) :
  NoDup l -> NoDup (map Some l).
Proof.
  induction 1 as [|x l Hx _ IH]; simpl; constructor; [|exact IH].
  intros Hin. apply in_map_iff in Hin as (y & Hy & Hin).
  injection Hy as ->. contradiction.
Qed.

Lemma append_new_distinct (ms : list (option Brick.t)) :
  forall next,
    NoDup (map identity (next ++ ms)) -> append_new next ms = next ++ ms.
Proof.
  induction ms as [|m ms IH]; intros next Hnd.
  - now rewrite app_nil_r.
  - rewrite append_new_fold. simpl. rewrite <- append_new_fold.
    assert (Hnew : existsb (same_brick m) next = false).
    { destruct (existsb (same_brick m) next) eqn:Hs; [|reflexivity].
      apply seen_identity in Hs. rewrite map_app in Hnd. simpl in Hnd.
      apply NoDup_remove_2 in Hnd. exfalso. apply Hnd.
      apply in_app_iff. now left. }
    unfold append_one. rewrite Hnew.
    rewrite IH; rewrite <- app_assoc; [reflexivity | exact Hnd].
Qed.

Lemma descend_distinct (self : Selector.t) (roots : list Brick.t)
      (node : string) :
  bricks self = map Some roots ->
  forall current acc,
    NoDup (map identity
             (acc ++ map Some
                    (flat_map
                       (fun c => filter
                                   (fun b => String.eqb (Brick.name b) node)
                                   (children_list roots c))
                       current))) ->
    descend self node current acc
    = Ok (acc ++ map Some
                (flat_map
                   (fun c => filter (fun b => String.eqb (Brick.name b) node)
                                    (children_list roots c))
                   current)).
Proof.
  intros Hr. induction current as [|c current IH]; intros acc Hnd; simpl.
  - now rewrite app_nil_r.
  - rewrite (children_of_real self roots c Hr), matching_real. simpl.
    simpl in Hnd. rewrite (map_app Some) in Hnd. rewrite app_assoc in Hnd.
    rewrite append_new_distinct.
    + rewrite IH; [|exact Hnd]. now rewrite (map_app Some), app_assoc.
    + rewrite (map_app identity) in Hnd.
      apply NoDup_app_remove_r in Hnd. exact Hnd.
Qed.

(** X16. Order of discovery: over real bricks, when the children of the
    frontier that bear the name asked for are distinct bricks, the new
    frontier is these children, all of them, frontier member after
    frontier member and in the order of the children; so a single name
    selects, among the bricks of the selection, those of that name in
    their order, when they are distinct. *)
Theorem descend_keeps_order (self : Selector.t) (roots : list Brick.t)
        (node : string) :
  bricks self = map Some roots ->
  (forall current,
      NoDup (map Brick.id
               (flat_map
                  (fun c => filter (fun b => String.eqb (Brick.name b) node)
                                   (children_list roots c))
                  current)) ->
      descend self node current []
      = Ok (map Some
              (flat_map
                 (fun c => filter (fun b => String.eqb (Brick.name b) node)
                                  (children_list roots c))
                 current)))
  /\ (NoDup (map Brick.id
                (filter (fun b => String.eqb (Brick.name b) node) roots)) ->
      select self (APath (Path.Path [Path.BrickName node]))
      = Ok (Bricks (Selector
                      (map Some
                         (filter (fun b => String.eqb (Brick.name b) node)
                                 roots))))).
Proof.
  intros Hr.
  assert (Hd : forall current,
             NoDup (map Brick.id
                      (flat_map
                         (fun c => filter
                                     (fun b => String.eqb (Brick.name b) node)
                                     (children_list roots c))
                         current)) ->
             descend self node current []
             = Ok (map Some
                     (flat_map
                        (fun c => filter
                                    (fun b => String.eqb (Brick.name b) node)
                                    (children_list roots c))
                        current))).
  { intros current Hnd.
    apply (descend_distinct self roots node Hr current []). simpl.
    rewrite map_map. unfold identity. simpl.
    rewrite <- (map_map Brick.id Some).
    exact (NoDup_map_some _ _ Hnd). }
  split; [exact Hd|].
  intros Hnd. unfold select. cbn [bind Path.nodes select_loop].
  rewrite (Hd [None]).
  - cbn [bind flat_map children_list]. now rewrite app_nil_r.
  - cbn [flat_map children_list]. now rewrite app_nil_r.
Qed.

Lemma descend_keeps_order_witness :
  descend (Selector (map Some [Examples.net_both])) "layer"
          [Some Examples.net_both] []
  = Ok [Some Examples.layer1; Some Examples.layer2]
  /\ select (Selector (map Some [Examples.net_left; Examples.net_right]))
            (APath (Path.Path [Path.BrickName "net"]))
     = Ok (Bricks (Selector [Some Examples.net_left; Some Examples.net_right])).
Proof.
  split.
  - apply (proj1 (descend_keeps_order
                    (Selector (map Some [Examples.net_both]))
                    [Examples.net_both] "layer" eq_refl)
             [Some Examples.net_both]).
    repeat constructor; simpl; intuition lia.
  - apply (proj2 (descend_keeps_order
                    (Selector (map Some [Examples.net_left;
                                         Examples.net_right]))
                    [Examples.net_left; Examples.net_right] "net" eq_refl)).
    repeat constructor; simpl; intuition lia.
Defined.

End SelectorLaws.

(** ** What the aggregated mapping holds *)

Section DictLaws.
Variables K V : Type.
Variable eqb : K -> K -> bool.
Variable I : K -> V -> Prop.
Hypothesis I_stable :
  forall k' v' k v, I k' v' -> I k v -> eqb k' k = true -> I k' v.

Local Abbreviation holds := (Forall (fun kv : K * V => I (fst kv) (snd kv))).

Lemma setitem_holds (d : OrderedDict.t K V) (k : K) (v : V) :
  holds d -> I k v -> holds (OrderedDict.setitem eqb d k v).
Proof.
  intros Hd Hkv. induction Hd as [|[k' v'] d Hk' Hd IH]; simpl.
  - constructor; [exact Hkv | constructor].
  - destruct (eqb k' k) eqn:He.
    + constructor; [exact (I_stable k' v' k v Hk' Hkv He) | exact Hd].
    + constructor; [exact Hk' | exact IH].
Qed.

Lemma fold_setitem_holds (A : Type) (f : A -> K) (g : A -> V) (l : list A) :
  forall d : OrderedDict.t K V,
    holds d ->
    (forall a, In a l -> I (f a) (g a)) ->
    holds (fold_left (fun d a => OrderedDict.setitem eqb d (f a) (g a)) l d).
Proof.
  induction l as [|a l IH]; intros d Hd Hl; [exact Hd|].
  simpl. apply IH.
  - apply setitem_holds; [exact Hd | apply Hl; now left].
  - intros a' Ha'. apply Hl. now right.
Qed.

Lemma update_holds (d other : OrderedDict.t K V) :
  holds d -> holds other -> holds (OrderedDict.update eqb d other).
Proof.
  intros Hd Ho. unfold OrderedDict.update.
  apply (fold_setitem_holds (K * V) fst snd other d Hd).
  intros a Ha. exact (proj1 (Forall_forall _ _) Ho a Ha).
Qed.

Lemma dict_union_into_holds (ds : list (OrderedDict.t K V)) :
  forall acc r,
    OrderedDict.dict_union_into eqb acc ds = Ok r ->
    holds acc -> Forall holds ds -> holds r.
Proof.
  induction ds as [|d ds IH]; intros acc r Hr Hacc Hds; simpl in Hr.
  - injection Hr as <-. exact Hacc.
  - destruct (existsb (fun kv => OrderedDict.contains eqb acc (fst kv)) d);
      [discriminate|].
    inversion Hds as [|? ? Hd Hds']; subst.
    apply (IH _ _ Hr); [now apply update_holds | exact Hds'].
Qed.

End DictLaws.

Lemma fold_left_invariant (A B : Type) (Q : A -> Prop) (f : A -> B -> A)
      (l : list B) :
  forall a,
    Q a -> (forall a x, In x l -> Q a -> Q (f a x)) -> Q (fold_left f l a).
Proof.
  induction l as [|x l IH]; intros a Ha Hf; [exact Ha|].
  simpl. apply IH.
  - apply Hf; [now left | exact Ha].
  - intros a' x' Hx'. apply Hf. now right.
Qed.

Lemma fold_left_ext_in (A B : Type) (f g : A -> B -> A) (l : list B) :
  (forall a x, In x l -> f a x = g a x) ->
  forall a, fold_left f l a = fold_left g l a.
Proof.
  induction l as [|x l IH]; intros Hfg a; [reflexivity|].
  simpl. rewrite (Hfg a x (or_introl eq_refl)).
  apply IH. intros a' x' Hx'. apply Hfg. now right.
Qed.

Module AggregatorLaws.
Import Selector AggregatorFacts.

(** A property of the entries of [recursion] that the parameters of a
    brick have under their own path and that goes up from a child to its
    parent holds of all entries. *)
Lemma recursion_holds (param_name : option Path.node)
      (J : Brick.t -> Path.t -> Param.t -> Prop) :
  (forall b k' v' k v,
      J b k' v' -> J b k v -> Path.__eq__ k' k = true -> J b k' v) ->
  (forall id name allocated children params p,
      In p params -> keeps param_name p = true ->
      J (Brick.mk id name allocated children params)
        (Path.Path [Path.BrickName name; Path.ParamName (Param.name p)]) p) ->
  (forall id name allocated children params child path param,
      In child children -> J child path param ->
      J (Brick.mk id name allocated children params)
        (Path.__add__ (Path.Path [Path.BrickName name]) path) param) ->
  forall b, Forall (fun kv => J b (fst kv) (snd kv)) (recursion param_name b).
Proof.
  intros Hstable Hown Hlift.
  induction b as [id name allocated children params IH] using brick_induction.
  simpl recursion.
  set (b := Brick.mk id name allocated children params).
  apply fold_left_invariant
    with (Q := Forall (fun kv => J b (fst kv) (snd kv))).
  - unfold OrderedDict.of_pairs.
    apply (fold_setitem_holds _ _ Path.__eq__ (J b) (Hstable b));
      [constructor|].
    intros kv Hkv. apply in_map_iff in Hkv as (p & <- & Hp).
    apply filter_In in Hp as [Hp Hk]. simpl. now apply Hown.
  - intros acc child Hchild Hacc.
    apply (fold_setitem_holds _ _ Path.__eq__ (J b) (Hstable b)
             _ (fun kv => Path.__add__ (Path.Path [Path.BrickName name])
                                       (fst kv)) snd);
      [exact Hacc|].
    intros [path param] Hin. simpl.
    apply (Hlift id name allocated children params child path param Hchild).
    rewrite Forall_forall in IH.
    exact (proj1 (Forall_forall _ _) (IH child Hchild) (path, param) Hin).
Qed.

Lemma recursion_all_dicts (param_name : option Path.node) :
  forall bs dicts,
    recursion_all param_name bs = Ok dicts ->
    forall d, In d dicts ->
              exists b, In (Some b) bs /\ d = recursion param_name b.
Proof.
  induction bs as [|[b|] bs IH]; intros dicts Hd d Hin; simpl in Hd.
  - injection Hd as <-. destruct Hin.
  - destruct (recursion_all param_name bs) as [ds|e]; simpl in Hd;
      [|discriminate].
    injection Hd as <-. destruct Hin as [<-|Hin].
    + exists b. split; [now left | reflexivity].
    + destruct (IH ds eq_refl d Hin) as (b' & Hb' & ->).
      exists b'. split; [now right | reflexivity].
  - discriminate.
Qed.

(** The same for the mapping [get_params] returns, whose keys are the
    string forms of the paths. *)
Lemma get_params_holds (self : Selector.t) (param_name : option Path.node)
      (J : Path.t -> Param.t -> Prop)
      (mapping : OrderedDict.t string Param.t) :
  (forall k' v' k v, J k' v' -> J k v -> Path.__eq__ k' k = true -> J k' v) ->
  (forall b, In (Some b) (bricks self) ->
             Forall (fun kv => J (fst kv) (snd kv)) (recursion param_name b)) ->
  get_params self param_name = Ok mapping ->
  forall key v, In (key, v) mapping ->
                exists k, key = Path.__str__ k /\ J k v.
Proof.
  intros Hstable Hroots Hg. unfold get_params in Hg.
  destruct (recursion_all param_name (bricks self)) as [dicts|e] eqn:Hd;
    simpl in Hg; [|discriminate].
  destruct (OrderedDict.dict_union Path.__eq__ dicts) as [result|e] eqn:Hu;
    simpl in Hg; [|discriminate].
  injection Hg as <-.
  assert (Hresult : Forall (fun kv => J (fst kv) (snd kv)) result).
  { apply (dict_union_into_holds _ _ Path.__eq__ J Hstable dicts [] result Hu);
      [constructor|].
    apply Forall_forall. intros d Hin.
    destruct (recursion_all_dicts param_name _ _ Hd d Hin) as (b & Hb & ->).
    exact (Hroots b Hb). }
  intros key v Hin.
  assert (Hall : Forall (fun kv : string * Param.t =>
                           exists k, fst kv = Path.__str__ k /\ J k (snd kv))
                        (OrderedDict.of_pairs String.eqb
                           (map (fun kv => (Path.__str__ (fst kv), snd kv))
                                (OrderedDict.items result)))).
  { unfold OrderedDict.of_pairs.
    apply (fold_setitem_holds _ _ String.eqb
             (fun key v => exists k, key = Path.__str__ k /\ J k v)).
    - intros k' v' k v0 _ (p & Hp & Hj) He. apply String.eqb_eq in He.
      exists p. split; [congruence | exact Hj].
    - constructor.
    - intros [key' v'] Hin'. apply in_map_iff in Hin' as ([k0 v0] & Heq & Hin').
      injection Heq as <- <-. exists k0. split; [reflexivity|].
      exact (proj1 (Forall_forall _ _) Hresult (k0, v0) Hin'). }
  exact (proj1 (Forall_forall _ _) Hall (key, v) Hin).
Qed.

Lemma select_loop_params (self : Selector.t) (n : string)
      (names : list string) :
  forall current l,
    select_loop self (map Path.BrickName names ++ [Path.ParamName n]) current
    = Ok (Params l) ->
    exists frontier mapping,
      get_params (Selector frontier) (Some (Path.ParamName n)) = Ok mapping
      /\ l = OrderedDict.values mapping.
Proof.
  induction names as [|b names IH]; intros current l Hl; simpl in Hl.
  - destruct (get_params (Selector current) (Some (Path.ParamName n)))
      as [mapping|e] eqn:Hg; simpl in Hl; [|discriminate].
    injection Hl as <-. exists current, mapping. split; [exact Hg | reflexivity].
  - destruct (descend self b current []) as [next|e]; simpl in Hl;
      [exact (IH _ _ Hl) | discriminate].
Qed.

(** X9. With a parameter name that is not empty [get_params] returns
    parameters of that name only; so does [select] for a path of brick
    names that ends on that parameter name. *)
Theorem get_params_filter_by_name (node : Path.node) :
  Path.str_of node <> EmptyString ->
  (forall self mapping,
      get_params self (Some node) = Ok mapping ->
      forall key p, In (key, p) mapping -> Param.name p = Path.str_of node)
  /\ (forall self names n l,
         node = Path.ParamName n ->
         select self (APath (Path.Path (map Path.BrickName names
                                        ++ [Path.ParamName n])))
         = Ok (Params l) ->
         forall p, In p l -> Param.name p = n).
Proof.
  intros Hne.
  assert (Hg : forall self mapping,
             get_params self (Some node) = Ok mapping ->
             forall key p, In (key, p) mapping ->
                           Param.name p = Path.str_of node).
  { intros self mapping Hm key p Hin.
    destruct (get_params_holds self (Some node)
                (fun _ v => Param.name v = Path.str_of node) mapping)
      with (key := key) (v := p) as (k & _ & Hk); auto.
    intros b _.
    apply (recursion_holds (Some node)
             (fun _ _ v => Param.name v = Path.str_of node)); auto.
    intros id name allocated children params p' _ Hkeep.
    unfold keeps in Hkeep. apply String.eqb_neq in Hne.
    rewrite Hne in Hkeep. now apply String.eqb_eq. }
  split; [exact Hg|].
  intros self names n l -> Hs p Hp. unfold select in Hs. simpl in Hs.
  destruct (select_loop_params self n names _ l Hs)
    as (frontier & mapping & Hm & ->).
  apply in_map_iff in Hp as ([key p'] & <- & Hin).
  exact (Hg (Selector frontier) mapping Hm key p' Hin).
Qed.

Lemma get_params_filter_by_name_witness :
  select (Selector [Some Examples.net_left])
         (APath (Path.Path (map Path.BrickName ["net"; "layer"]%string
                            ++ [Path.ParamName "w"])))
  = Ok (Params [Examples.w1])
  /\ forall p, In p [Examples.w1] -> Param.name p = "w"%string.
Proof.
  split; [reflexivity|].
  apply (proj2 (get_params_filter_by_name (Path.ParamName "w")
                  ltac:(discriminate))
           (Selector [Some Examples.net_left])
           ["net"; "layer"]%string "w"%string [Examples.w1] eq_refl).
  reflexivity.
Defined.

Lemma recursion_empty_name (node : Path.node) :
  Path.str_of node = EmptyString ->
  forall b, recursion (Some node) b = recursion None b.
Proof.
  intros He.
  induction b as [id name allocated children params IH] using brick_induction.
  simpl recursion.
  assert (Hf : filter (keeps (Some node)) params = filter (keeps None) params).
  { apply filter_ext. intros p. unfold keeps. now rewrite He. }
  rewrite Hf. apply fold_left_ext_in.
  intros acc child Hchild.
  now rewrite (proj1 (Forall_forall _ _) IH child Hchild).
Qed.

(** X10. An empty parameter name filters nothing: [get_params] with it
    is [get_params] without a name. *)
Theorem get_params_empty_name (self : Selector.t) (node : Path.node) :
  Path.str_of node = EmptyString ->
  get_params self (Some node) = get_params self None.
Proof.
  intros He. unfold get_params.
  assert (Hall : forall bs,
             recursion_all (Some node) bs = recursion_all None bs).
  { induction bs as [|[b|] bs IH]; simpl; [reflexivity| |reflexivity].
    now rewrite IH, (recursion_empty_name node He b). }
  now rewrite Hall.
Qed.

Lemma get_params_empty_name_witness :
  get_params (Selector [Some Examples.net_both])
             (Some (Path.ParamName EmptyString))
  = get_params (Selector [Some Examples.net_both]) None.
Proof.
  apply (get_params_empty_name (Selector [Some Examples.net_both])
           (Path.ParamName EmptyString)).
  reflexivity.
Defined.

Lemma names_of_shape (l : list string) (x : string) :
  map Path.str_of (map Path.BrickName l ++ [Path.ParamName x]) = l ++ [x].
Proof.
  rewrite map_app, map_map. simpl. now rewrite map_id.
Qed.

Lemma shape_stable (k' k : Path.t) (l' l : list string) (x' x : string) :
  Path.nodes k' = map Path.BrickName l' ++ [Path.ParamName x'] ->
  Path.nodes k = map Path.BrickName l ++ [Path.ParamName x] ->
  Path.__eq__ k' k = true ->
  Path.nodes k' = map Path.BrickName l ++ [Path.ParamName x].
Proof.
  intros Hk' Hk He. apply path_eq_names in He.
  rewrite Hk', Hk, !names_of_shape in He.
  apply app_inj_tail in He as [-> ->]. exact Hk'.
Qed.

Lemma at_path_incl (r1 r2 : list Brick.t) (names : list string) (b : Brick.t) :
  (forall x, In x r1 -> In x r2) ->
  SelectorSpec.at_path r1 names b -> SelectorSpec.at_path r2 names b.
Proof.
  intros Hincl. destruct names as [|n [|n' names]]; simpl; [auto| |].
  - intros [Hin Hn]. auto.
  - intros (parent & Hin & Hn & Hat). exists parent. auto.
Qed.

(** Every entry of [recursion] files a parameter under the names of the
    bricks from the root down to the brick that owns it, then its own
    name. *)
Lemma recursion_entries (param_name : option Path.node) (b : Brick.t) :
  Forall (fun kv =>
            exists names owner,
              Path.nodes (fst kv)
              = map Path.BrickName names
                    ++ [Path.ParamName (Param.name (snd kv))]
              /\ SelectorSpec.at_path [b] names owner
              /\ In (snd kv) (Brick.params owner))
         (recursion param_name b).
Proof.
  apply (recursion_holds param_name
           (fun b k v =>
              exists names owner,
                Path.nodes k
                = map Path.BrickName names ++ [Path.ParamName (Param.name v)]
                /\ SelectorSpec.at_path [b] names owner
                /\ In v (Brick.params owner))).
  - intros b0 k' v' k v (l' & o' & Hk' & _) (l & o & Hk & Hat & Hin) He.
    exists l, o. repeat split; [|exact Hat|exact Hin].
    exact (shape_stable k' k l' l _ _ Hk' Hk He).
  - intros id name allocated children params p Hp _.
    exists [name], (Brick.mk id name allocated children params).
    repeat split; [now left | exact Hp].
  - intros id name allocated children params child path param Hchild
           (l & o & Hk & Hat & Hin).
    exists (name :: l), o. repeat split; [| |exact Hin].
    + simpl. now rewrite Hk.
    + destruct l as [|n l]; [destruct Hat|].
      exists (Brick.mk id name allocated children params).
      repeat split; [now left|].
      apply (at_path_incl [child] children); [|exact Hat].
      intros x [<-|[]]. exact Hchild.
Qed.

(** X11. Every entry of the mapping [get_params] returns is sound: its
    parameter belongs to a brick found from one of the selected bricks
    along a chain of children, and its key is the string form of the
    path of the names of that chain followed by the name of the
    parameter. *)
Theorem get_params_entries_sound (self : Selector.t)
        (param_name : option Path.node)
        (mapping : OrderedDict.t string Param.t) :
  get_params self param_name = Ok mapping ->
  forall key p,
    In (key, p) mapping ->
    exists root names owner,
      In (Some root) (bricks self)
      /\ SelectorSpec.at_path [root] names owner
      /\ In p (Brick.params owner)
      /\ key = Path.__str__
                 (Path.Path (map Path.BrickName names
                             ++ [Path.ParamName (Param.name p)])).
Proof.
  intros Hm key p Hin.
  destruct (get_params_holds self param_name
              (fun k v =>
                 exists root names owner,
                   In (Some root) (bricks self)
                   /\ SelectorSpec.at_path [root] names owner
                   /\ In v (Brick.params owner)
                   /\ Path.nodes k
                      = map Path.BrickName names
                            ++ [Path.ParamName (Param.name v)])
              mapping)
    with (key := key) (v := p)
    as (k & -> & root & names & owner & Hr & Hat & Hp & Hk); auto.
  - intros k' v' k v (r' & l' & o' & _ & _ & _ & Hk')
           (r & l & o & Hr & Hat & Hp & Hk) He.
    exists r, l, o. repeat split; auto.
    exact (shape_stable k' k l' l _ _ Hk' Hk He).
  - intros b Hb. eapply Forall_impl; [|exact (recursion_entries param_name b)].
    intros [k v] (names & owner & Hk & Hat & Hp). simpl in *.
    exists b, names, owner. auto.
  - exists root, names, owner. repeat split; auto.
    destruct k as [ns]. simpl in Hk. now rewrite Hk.
Qed.

Lemma get_params_entries_sound_witness :
  exists root names owner,
    In (Some root) [Some Examples.net_both]
    /\ SelectorSpec.at_path [root] names owner
    /\ In Examples.w2 (Brick.params owner)
    /\ "/net/layer.w"%string
       = Path.__str__
           (Path.Path (map Path.BrickName names
                       ++ [Path.ParamName (Param.name Examples.w2)])).
Proof.
  apply (get_params_entries_sound (Selector [Some Examples.net_both]) None
           [("/net/layer.w"%string, Examples.w2)] eq_refl
           "/net/layer.w"%string Examples.w2).
  now left.
Defined.

End AggregatorLaws.

(** ** Construction of the model *)

Module ModelLaws.
Import ModelSpec ModelFacts.

Lemma assert_allocated_forallb (bricks : list Brick.t) :
  Model.assert_allocated bricks
  = if forallb Brick.allocated bricks then Ok tt else Raise AssertionError.
Proof.
  induction bricks as [|b bricks IH]; [reflexivity|].
  simpl. destruct (Brick.allocated b); [exact IH | reflexivity].
Qed.

(** X12. Construction fails with the [AssertionError] as soon as one top
    brick is not allocated, whatever the cost graph; a model that is
    constructed has all its top bricks allocated, keeps them and the cost
    as given, and holds the variables [_get_variables] computes on the
    cost. *)
Theorem init_requires_allocated (top_bricks : list Brick.t) (cost : Var.t) :
  (forallb Brick.allocated top_bricks = false ->
   Model.__init__ top_bricks cost = Raise AssertionError)
  /\ (forall model,
         Model.__init__ top_bricks cost = Ok model ->
         forallb Brick.allocated top_bricks = true
         /\ Model.top_bricks model = top_bricks
         /\ Model.cost model = cost
         /\ Model._get_variables cost
            = Ok (Model.variables model, Model.input_variables model)).
Proof.
  unfold Model.__init__. rewrite assert_allocated_forallb.
  destruct (forallb Brick.allocated top_bricks); split; simpl;
    try discriminate; try reflexivity.
  intros model Hm.
  destruct (Model._get_variables cost) as [[vs ins]|e]; simpl in Hm;
    [|discriminate].
  injection Hm as <-. repeat split.
Qed.

Lemma init_requires_allocated_witness :
  Model.__init__ [Brick.mk 1 "mlp" false [] []] Examples.f
  = Raise AssertionError
  /\ (forallb Brick.allocated [Examples.net_left] = true
      /\ Model.top_bricks
           (Model.Model [Examples.net_left] Examples.f
                        [Examples.c] [Examples.c])
         = [Examples.net_left]
      /\ Model.cost
           (Model.Model [Examples.net_left] Examples.f
                        [Examples.c] [Examples.c])
         = Examples.f
      /\ Model._get_variables Examples.f = Ok ([Examples.c], [Examples.c])).
Proof.
  split.
  - apply (proj1 (init_requires_allocated
                    [Brick.mk 1 "mlp" false [] []] Examples.f)).
    reflexivity.
  - apply (proj2 (init_requires_allocated [Examples.net_left] Examples.f)
             (Model.Model [Examples.net_left] Examples.f
                          [Examples.c] [Examples.c])).
    reflexivity.
Defined.

Lemma reachable_input (id : nat) (cls : Var.class) (inputs : list Var.t)
      (i u : Var.t) :
  In i inputs -> In u (GraphSpec.reachable i) ->
  In u (GraphSpec.reachable (Var.mk id cls (Some inputs))).
Proof.
  intros Hi Hu. simpl. right. apply in_flat_map. now exists i.
Qed.

Lemma reachable_trans (v : Var.t) :
  forall op u,
    In op (GraphSpec.reachable v) -> In u (GraphSpec.reachable op) ->
    In u (GraphSpec.reachable v).
Proof.
  induction v as [id cls|id cls inputs IH] using var_induction;
    intros op u Hop Hu.
  - destruct Hop as [<-|[]]. exact Hu.
  - destruct Hop as [<-|Hop]; [exact Hu|].
    apply in_flat_map in Hop as (i & Hi & Hop).
    apply (reachable_input id cls inputs i u Hi).
    exact (proj1 (Forall_forall _ _) IH i Hi op u Hop Hu).
Qed.

Lemma last_of_operation_reachable (cost u : Var.t) :
  last_of_operation cost u -> In u (GraphSpec.reachable cost).
Proof.
  intros (op & front & Hop & Ho).
  apply (reachable_trans cost op u Hop).
  destruct op as [id cls [inputs|]]; simpl in Ho; [|discriminate].
  injection Ho as ->. simpl. right. apply in_flat_map.
  exists u. split; [|apply reachable_self].
  apply in_app_iff. right. now left.
Qed.

Lemma inputs_loop_last (inputs : list Var.t) :
  Forall adds_last_inputs inputs ->
  forall inp variables variables',
    inputs_loop inputs inp variables = Ok variables' ->
    forall u, In u variables' ->
              In u variables
              \/ (exists i, In i inputs /\ last_of_operation i u)
              \/ (inputs = [] /\ inp = Some u)
              \/ (exists front, inputs = front ++ [u]).
Proof.
  induction 1 as [|i rest Hi _ IH]; intros inp variables variables' Hl u Hu;
    simpl in Hl.
  - destruct inp as [inp|]; [|discriminate]. injection Hl as <-.
    destruct (in_add _ _ _ Hu) as [H| ->]; auto.
  - assert (Hrest : forall vs,
               inputs_loop rest (Some i) vs = Ok variables' ->
               In u vs
               \/ (exists i', In i' (i :: rest) /\ last_of_operation i' u)
               \/ (i :: rest = [] /\ inp = Some u)
               \/ (exists front, i :: rest = front ++ [u])).
    { intros vs Hvs.
      destruct (IH _ _ _ Hvs u Hu) as [H|[(i' & Hi' & H)|[[-> H]|[front ->]]]].
      - now left.
      - right. left. exists i'. split; [now right | exact H].
      - injection H as <-. right. right. right. now exists [].
      - right. right. right. now exists (i :: front). }
    destruct (negb (Var.mem i variables)).
    + destruct (Model.recursion i variables) as [variables1|e] eqn:Hr;
        simpl in Hl; [|discriminate].
      destruct (Hrest _ Hl) as [H|H]; [|now right].
      destruct (Hi _ _ Hr u H) as [H'|H']; [now left|].
      right. left. exists i. split; [now left | exact H'].
    + exact (Hrest _ Hl).
Qed.

Lemma recursion_last (v : Var.t) : adds_last_inputs v.
Proof.
  induction v as [id cls|id cls inputs IH] using var_induction;
    intros variables variables' Hr u Hu.
  - injection Hr as <-. now left.
  - rewrite recursion_owner in Hr.
    destruct (inputs_loop_last inputs IH _ _ _ Hr u Hu)
      as [H|[(i & Hi & op & front & Hop & Ho)|[[_ H]|[front ->]]]].
    + now left.
    + right. exists op, front. split; [|exact Ho].
      exact (reachable_input id cls inputs i op Hi Hop).
    + discriminate.
    + right. exists (Var.mk id cls (Some (front ++ [u]))), front.
      split; [now left | reflexivity].
Qed.

Lemma is_input_leaf (u : Var.t) :
  Model.is_input u = true <->
  Var.owner u = None /\ Var.cls u = Var.TensorVariable.
Proof.
  destruct u as [id cls [inputs|]]; unfold Model.is_input; simpl.
  - split; [discriminate | intros [H _]; discriminate].
  - unfold Var.isinstance. simpl.
    destruct cls; simpl; split; intros H; try discriminate;
      try (split; reflexivity); try reflexivity;
      destruct H as [_ H]; discriminate.
Qed.

(** X13. Whatever [_get_variables] finds is the last input of an
    operation reachable from the cost, and so reachable itself; the input
    variables are those of the variables found that have no owner and are
    neither shared nor constant. *)
Theorem variables_are_last_inputs (cost : Var.t) (variables : Var.set)
        (input_variables : list Var.t) :
  Model._get_variables cost = Ok (variables, input_variables) ->
  (forall u, In u variables ->
             last_of_operation cost u /\ In u (GraphSpec.reachable cost))
  /\ (forall u, In u input_variables <->
                In u variables
                /\ Var.owner u = None /\ Var.cls u = Var.TensorVariable).
Proof.
  unfold Model._get_variables. intros H.
  destruct (Model.recursion cost []) as [vs|e] eqn:Hr; simpl in H;
    [|discriminate].
  injection H as <- <-. split.
  - intros u Hu. destruct (recursion_last cost _ _ Hr u Hu) as [[]|Hl].
    split; [exact Hl | exact (last_of_operation_reachable cost u Hl)].
  - intros u. rewrite filter_In, is_input_leaf. reflexivity.
Qed.

Lemma variables_are_last_inputs_witness :
  (forall u, In u [Examples.a] ->
             last_of_operation Examples.g u
             /\ In u (GraphSpec.reachable Examples.g))
  /\ (forall u, In u [] <->
                In u [Examples.a]
                /\ Var.owner u = None /\ Var.cls u = Var.TensorVariable).
Proof.
  apply (variables_are_last_inputs Examples.g [Examples.a] []).
  reflexivity.
Defined.

Lemma inputs_loop_returns (inputs : list Var.t) :
  Forall returns_with_inputs inputs ->
  forallb has_inputs (flat_map GraphSpec.reachable inputs) = true ->
  forall inp variables,
    inputs <> [] \/ inp <> None ->
    exists variables', inputs_loop inputs inp variables = Ok variables'.
Proof.
  induction 1 as [|i rest Hi _ IH]; intros Hall inp variables Hne.
  - destruct inp as [inp|]; [simpl; eauto|].
    destruct Hne as [Hne|Hne]; contradiction.
  - simpl in Hall. rewrite forallb_app in Hall.
    apply andb_true_iff in Hall as [Hall_i Hall_rest]. simpl.
    destruct (negb (Var.mem i variables)).
    + destruct (Hi Hall_i variables) as [variables1 ->]. simpl.
      apply (IH Hall_rest). right. discriminate.
    + apply (IH Hall_rest). right. discriminate.
Qed.

Lemma recursion_returns (v : Var.t) : returns_with_inputs v.
Proof.
  induction v as [id cls|id cls inputs IH] using var_induction;
    intros Hall variables.
  - simpl. eauto.
  - rewrite recursion_owner. simpl in Hall.
    apply andb_true_iff in Hall as [Hv Hall].
    apply (inputs_loop_returns inputs IH Hall). left.
    unfold has_inputs in Hv. simpl in Hv.
    destruct inputs; [discriminate | discriminate].
Qed.

Lemma inputs_loop_same (call : Var.t -> Var.set -> result Var.set)
      (inputs : list Var.t) :
  Forall (fun i => forall variables,
              call i variables = Model.recursion i variables) inputs ->
  forall inp variables,
    RecursionLimit.inputs_loop call inputs inp variables
    = inputs_loop inputs inp variables.
Proof.
  induction 1 as [|i rest Hi _ IH]; intros inp variables; [reflexivity|].
  simpl. rewrite Hi.
  destruct (negb (Var.mem i variables)); [|apply IH].
  destruct (Model.recursion i variables); simpl; [apply IH | reflexivity].
Qed.

Lemma list_max_bound (l : list nat) (n x : nat) :
  list_max l <= n -> In x l -> x <= n.
Proof.
  induction l as [|y l IH]; intros Hmax Hx; [destruct Hx|].
  simpl in Hmax. destruct Hx as [->|Hx]; [lia|].
  apply IH; [lia | exact Hx].
Qed.

(** With frames enough for its height the limited walk is the walk. *)
Lemma recursion_within_limit (v : Var.t) :
  forall frames variables,
    RecursionLimit.height v <= frames ->
    RecursionLimit.recursion frames v variables
    = Model.recursion v variables.
Proof.
  induction v as [id cls|id cls inputs IH] using var_induction;
    intros frames variables Hh.
  - destruct frames as [|frames]; [simpl in Hh; lia | reflexivity].
  - destruct frames as [|frames]; [simpl in Hh; lia|].
    rewrite recursion_owner. simpl RecursionLimit.recursion.
    apply inputs_loop_same.
    apply Forall_forall. intros i Hi vars.
    apply (proj1 (Forall_forall _ _) IH i Hi).
    simpl in Hh. apply le_S_n in Hh.
    apply (list_max_bound (map RecursionLimit.height inputs));
      [exact Hh | now apply in_map].
Qed.

Lemma limited_loop_raises (call : Var.t -> Var.set -> result Var.set)
      (inputs : list Var.t) :
  (forall i variables e,
      call i variables = Raise e ->
      e = UnboundLocalError "inp" \/ e = RuntimeError) ->
  forall inp variables e,
    RecursionLimit.inputs_loop call inputs inp variables = Raise e ->
    e = UnboundLocalError "inp" \/ e = RuntimeError.
Proof.
  intros Hcall.
  induction inputs as [|i rest IH]; intros inp variables e He; simpl in He.
  - destruct inp; [discriminate|]. injection He as <-. now left.
  - destruct (negb (Var.mem i variables)); [|exact (IH _ _ _ He)].
    destruct (call i variables) as [variables1|e'] eqn:Hc; simpl in He.
    + exact (IH _ _ _ He).
    + injection He as <-. exact (Hcall _ _ _ Hc).
Qed.

Lemma limited_recursion_raises (frames : nat) :
  forall v variables e,
    RecursionLimit.recursion frames v variables = Raise e ->
    e = UnboundLocalError "inp" \/ e = RuntimeError.
Proof.
  induction frames as [|frames IH]; intros v variables e He; simpl in He.
  - injection He as <-. now right.
  - destruct (Var.owner v) as [inputs|]; [|discriminate].
    exact (limited_loop_raises (RecursionLimit.recursion frames) inputs
             IH _ _ _ He).
Qed.

Lemma chain_exceeds_limit (frames : nat) :
  forall n,
    frames <= n ->
    RecursionLimit.recursion frames (RecursionLimit.chain n) []
    = Raise RuntimeError.
Proof.
  induction frames as [|frames IH]; intros n Hn; [reflexivity|].
  destruct n as [|n]; [lia|].
  simpl. rewrite (IH n); [reflexivity | lia].
Qed.

(** X14. Under the recursion limit, with [frames] nested calls still
    allowed: when the cost graph is no higher than [frames],
    [_get_variables] computes what the walk without limit computes, and so
    returns if every operation reachable from the cost has an input;
    whatever the graph, it raises nothing but the error of the unbound
    [inp] and the [RuntimeError] of the limit; and on a chain of at least
    [frames] operations it does raise that [RuntimeError]. *)
Theorem get_variables_within_limit (frames : nat) (cost : Var.t) :
  (RecursionLimit.height cost <= frames ->
   RecursionLimit._get_variables frames cost = Model._get_variables cost
   /\ (forallb has_inputs (GraphSpec.reachable cost) = true ->
       exists variables input_variables,
         RecursionLimit._get_variables frames cost
         = Ok (variables, input_variables)))
  /\ (forall e,
         RecursionLimit._get_variables frames cost = Raise e ->
         e = UnboundLocalError "inp" \/ e = RuntimeError)
  /\ (forall n,
         frames <= n ->
         RecursionLimit._get_variables frames (RecursionLimit.chain n)
         = Raise RuntimeError).
Proof.
  split; [|split].
  - intros Hh.
    assert (Hsame : RecursionLimit._get_variables frames cost
                    = Model._get_variables cost).
    { unfold RecursionLimit._get_variables, Model._get_variables.
      now rewrite (recursion_within_limit cost frames [] Hh). }
    split; [exact Hsame|].
    intros Hall. rewrite Hsame.
    destruct (recursion_returns cost Hall []) as [vs Hvs].
    exists vs, (filter Model.is_input vs).
    unfold Model._get_variables. now rewrite Hvs.
  - intros e He. unfold RecursionLimit._get_variables in He.
    destruct (RecursionLimit.recursion frames cost []) as [vs|e'] eqn:Hr;
      simpl in He; [discriminate|].
    injection He as <-. exact (limited_recursion_raises frames _ _ _ Hr).
  - intros n Hn. unfold RecursionLimit._get_variables.
    now rewrite (chain_exceeds_limit frames n Hn).
Qed.

Lemma get_variables_within_limit_witness :
  (RecursionLimit._get_variables 2 Examples.f
   = Model._get_variables Examples.f
   /\ exists variables input_variables,
       RecursionLimit._get_variables 2 Examples.f
       = Ok (variables, input_variables))
  /\ RecursionLimit._get_variables 2 (RecursionLimit.chain 2)
     = Raise RuntimeError.
Proof.
  destruct (get_variables_within_limit 2 Examples.f) as (Hin & _ & Hchain).
  split.
  - destruct (Hin ltac:(simpl; lia)) as [Hsame Hret].
    split; [exact Hsame | apply Hret; reflexivity].
  - apply (Hchain 2). lia.
Defined.

End ModelLaws.

(** ** What the aggregated mapping does not miss *)

Section DictComplete.
Variables K V : Type.
Variable eqb : K -> K -> bool.
Hypothesis eqb_refl : forall a, eqb a a = true.
Hypothesis eqb_trans :
  forall a b c, eqb a b = true -> eqb b c = true -> eqb a c = true.

Lemma contains_eq (d : OrderedDict.t K V) (k k' : K) :
  OrderedDict.contains eqb d k = true -> eqb k k' = true ->
  OrderedDict.contains eqb d k' = true.
Proof.
  rewrite !contains_keys. intros (x & Hin & Hx) He.
  exists x. split; [exact Hin | exact (eqb_trans x k k' Hx He)].
Qed.

Lemma contains_setitem_keep (d : OrderedDict.t K V) (k0 : K) (v0 : V) (k : K) :
  OrderedDict.contains eqb d k = true ->
  OrderedDict.contains eqb (OrderedDict.setitem eqb d k0 v0) k = true.
Proof.
  rewrite !contains_keys. intros (x & Hin & Hx).
  exists x. split; [now apply keys_setitem_incl | exact Hx].
Qed.

Lemma contains_fold_keep (A : Type) (f : A -> K) (g : A -> V) (l : list A) :
  forall (d : OrderedDict.t K V) (k : K),
    OrderedDict.contains eqb d k = true ->
    OrderedDict.contains eqb
      (fold_left (fun d a => OrderedDict.setitem eqb d (f a) (g a)) l d) k
    = true.
Proof.
  induction l as [|a l IH]; intros d k Hk; [exact Hk|].
  simpl. apply IH. now apply contains_setitem_keep.
Qed.

Lemma contains_fold_new (A : Type) (f : A -> K) (g : A -> V) (l : list A) :
  forall (d : OrderedDict.t K V) (a : A),
    In a l ->
    OrderedDict.contains eqb
      (fold_left (fun d a => OrderedDict.setitem eqb d (f a) (g a)) l d) (f a)
    = true.
Proof.
  induction l as [|a' l IH]; intros d a Ha; [destruct Ha|].
  simpl. destruct Ha as [->|Ha]; [|now apply IH].
  apply contains_fold_keep. now apply contains_setitem_new.
Qed.

Lemma dict_union_into_contains (ds : list (OrderedDict.t K V)) :
  forall acc r k,
    OrderedDict.dict_union_into eqb acc ds = Ok r ->
    OrderedDict.contains eqb acc k = true
    \/ (exists d, In d ds /\ OrderedDict.contains eqb d k = true) ->
    OrderedDict.contains eqb r k = true.
Proof.
  induction ds as [|d ds IH]; intros acc r k Hr Hk; simpl in Hr.
  - injection Hr as <-. destruct Hk as [Hk|(d & [] & _)]. exact Hk.
  - destruct (existsb (fun kv => OrderedDict.contains eqb acc (fst kv)) d);
      [discriminate|].
    apply (IH _ _ k Hr).
    destruct Hk as [Hk|(d' & [<-|Hin] & Hk)].
    + left. now apply contains_update_l.
    + left. now apply contains_update_r.
    + right. now exists d'.
Qed.

End DictComplete.

Lemma fold_left_reaches (A B : Type) (Q : A -> Prop) (f : A -> B -> A)
      (l : list B) :
  (forall a x, Q a -> Q (f a x)) ->
  forall x, In x l -> (forall a, Q (f a x)) ->
            forall a, Q (fold_left f l a).
Proof.
  intros Hkeep x Hx Hnew. induction l as [|y l IH]; intros a; [destruct Hx|].
  simpl. destruct Hx as [->|Hx]; [|now apply IH].
  apply fold_left_invariant; [apply Hnew | intros; now apply Hkeep].
Qed.

Module AggregatorComplete.
Import Selector AggregatorFacts AggregatorLaws.

Lemma at_path_split (roots : list Brick.t) (names : list string)
      (owner : Brick.t) :
  SelectorSpec.at_path roots names owner ->
  exists root, In root roots /\ SelectorSpec.at_path [root] names owner.
Proof.
  destruct names as [|n [|n' names]]; simpl; [intros []| |].
  - intros [Hin Hn]. exists owner. repeat split; auto.
  - intros (parent & Hin & Hn & Hat). exists parent. split; [exact Hin|].
    exists parent. repeat split; auto.
Qed.

Lemma add_brick_eq (name : string) (k target : Path.t) :
  Path.__eq__ k target = true ->
  Path.__eq__ (Path.__add__ (Path.Path [Path.BrickName name]) k)
              (Path.Path (Path.BrickName name :: Path.nodes target))
  = true.
Proof.
  intros He. apply path_eq_names in He. apply path_eq_names.
  simpl. now rewrite He.
Qed.

(** The path of every parameter kept below a brick is a key of
    [recursion] on that brick. *)
Lemma recursion_complete (param_name : option Path.node) (b : Brick.t) :
  forall names owner p,
    SelectorSpec.at_path [b] names owner ->
    In p (Brick.params owner) ->
    keeps param_name p = true ->
    OrderedDict.contains Path.__eq__ (recursion param_name b)
      (Path.Path (map Path.BrickName names
                  ++ [Path.ParamName (Param.name p)]))
    = true.
Proof.
  induction b as [id name allocated children params IH] using brick_induction.
  intros names owner p Hat Hp Hkeep. simpl recursion.
  destruct names as [|n [|n' names]]; [destruct Hat| |].
  - destruct Hat as [[<-|[]] <-]. simpl in Hp. simpl.
    apply fold_left_invariant
      with (Q := fun d =>
                   OrderedDict.contains Path.__eq__ d
                     (Path.Path [Path.BrickName name;
                                 Path.ParamName (Param.name p)]) = true).
    + unfold OrderedDict.of_pairs.
      apply (contains_fold_new _ _ Path.__eq__ path_eq_refl _ fst snd
               _ []
               (Path.Path [Path.BrickName name;
                           Path.ParamName (Param.name p)], p)).
      apply in_map_iff. exists p. split; [reflexivity|].
      apply filter_In. split; assumption.
    + intros acc child _ Hacc. now apply contains_fold_keep.
  - destruct Hat as (parent & [<-|[]] & <- & Hat). simpl in Hat.
    destruct (at_path_split children (n' :: names) owner Hat)
      as (child & Hchild & Hat').
    pose proof (proj1 (Forall_forall _ _) IH child Hchild
                  (n' :: names) owner p Hat' Hp Hkeep) as Hc.
    apply contains_keys in Hc as (k & Hk & He).
    apply in_map_iff in Hk as ([k' v] & Hk' & Hin). simpl in Hk'. subst k'.
    apply fold_left_reaches
      with (Q := fun d =>
                   OrderedDict.contains Path.__eq__ d
                     (Path.Path
                        (map Path.BrickName (name :: n' :: names)
                         ++ [Path.ParamName (Param.name p)])) = true)
           (x := child).
    + intros acc c Hacc. now apply contains_fold_keep.
    + exact Hchild.
    + intros acc.
      apply (contains_eq _ _ Path.__eq__ path_eq_trans _
               (Path.__add__ (Path.Path [Path.BrickName name]) k)).
      * apply (contains_fold_new _ _ Path.__eq__ path_eq_refl _
                 (fun kv => Path.__add__ (Path.Path [Path.BrickName name])
                                         (fst kv)) snd
                 _ acc (k, v)).
        exact Hin.
      * exact (add_brick_eq name k _ He).
Qed.

Lemma recursion_all_in (param_name : option Path.node) :
  forall bs dicts b,
    recursion_all param_name bs = Ok dicts ->
    In (Some b) bs ->
    In (recursion param_name b) dicts.
Proof.
  induction bs as [|[b'|] bs IH]; intros dicts b Hd Hin; simpl in Hd.
  - destruct Hin.
  - destruct (recursion_all param_name bs) as [ds|e]; simpl in Hd;
      [|discriminate].
    injection Hd as <-. destruct Hin as [Heq|Hin].
    + injection Heq as ->. now left.
    + right. exact (IH ds b eq_refl Hin).
  - discriminate.
Qed.

(** X15. When [get_params] returns a mapping it misses no path: for
    every parameter it keeps, owned by a brick found from a selected
    brick along a chain of children, the string form of the path of the
    names of the chain followed by the name of the parameter is a key of
    the mapping. *)
Theorem get_params_keys_complete (self : Selector.t)
        (param_name : option Path.node)
        (mapping : OrderedDict.t string Param.t) :
  get_params self param_name = Ok mapping ->
  forall root names owner p,
    In (Some root) (bricks self) ->
    SelectorSpec.at_path [root] names owner ->
    In p (Brick.params owner) ->
    keeps param_name p = true ->
    In (Path.__str__
          (Path.Path (map Path.BrickName names
                      ++ [Path.ParamName (Param.name p)])))
       (OrderedDict.keys mapping).
Proof.
  intros Hg root names owner p Hroot Hat Hp Hkeep. unfold get_params in Hg.
  destruct (recursion_all param_name (bricks self)) as [dicts|e] eqn:Hd;
    simpl in Hg; [|discriminate].
  destruct (OrderedDict.dict_union Path.__eq__ dicts) as [result|e] eqn:Hu;
    simpl in Hg; [|discriminate].
  injection Hg as <-.
  set (target := Path.Path (map Path.BrickName names
                            ++ [Path.ParamName (Param.name p)])).
  assert (Hc : OrderedDict.contains Path.__eq__ result target = true).
  { apply (dict_union_into_contains _ _ Path.__eq__ path_eq_refl path_eq_trans
             dicts [] result target Hu).
    right. exists (recursion param_name root).
    split; [exact (recursion_all_in param_name _ _ root Hd Hroot)|].
    exact (recursion_complete param_name root names owner p Hat Hp Hkeep). }
  apply contains_keys in Hc as (k & Hk & He).
  apply in_map_iff in Hk as ([k' v] & Hk' & Hin). simpl in Hk'. subst k'.
  assert (Hshape : Forall (fun kv : Path.t * Param.t =>
                             exists l x,
                               Path.nodes (fst kv)
                               = map Path.BrickName l ++ [Path.ParamName x])
                          result).
  { apply (dict_union_into_holds _ _ Path.__eq__
             (fun k _ => exists l x,
                  Path.nodes k = map Path.BrickName l ++ [Path.ParamName x]))
      with (ds := dicts) (acc := []); [auto|exact Hu|constructor|].
    apply Forall_forall. intros d Hdin.
    destruct (recursion_all_dicts param_name _ _ Hd d Hdin) as (b & _ & ->).
    eapply Forall_impl; [|exact (recursion_entries param_name b)].
    intros [k0 v0] (l & o & Hk0 & _). simpl in *. eauto. }
  destruct (proj1 (Forall_forall _ _) Hshape (k, v) Hin) as (l & x & Hkl).
  simpl in Hkl.
  assert (Hkt : k = target).
  { destruct k as [ns]. unfold target. f_equal. simpl in Hkl.
    exact (shape_stable (Path.Path ns) target l names x (Param.name p)
             Hkl eq_refl He). }
  subst k.
  assert (Hcs : OrderedDict.contains String.eqb
                  (OrderedDict.of_pairs String.eqb
                     (map (fun kv => (Path.__str__ (fst kv), snd kv))
                          (OrderedDict.items result)))
                  (Path.__str__ target) = true).
  { unfold OrderedDict.of_pairs.
    apply (contains_fold_new _ _ String.eqb String.eqb_refl _ fst snd
             _ [] (Path.__str__ target, v)).
    apply in_map_iff. now exists (target, v). }
  apply contains_keys in Hcs as (key & Hkey & Heq).
  apply String.eqb_eq in Heq. now subst key.
Qed.

Lemma get_params_keys_complete_witness :
  In (Path.__str__
        (Path.Path (map Path.BrickName ["net"; "layer"]%string
                    ++ [Path.ParamName (Param.name Examples.w1)])))
     (OrderedDict.keys [("/net/layer.w"%string, Examples.w2)]).
Proof.
  apply (get_params_keys_complete (Selector [Some Examples.net_both]) None
           [("/net/layer.w"%string, Examples.w2)] eq_refl
           Examples.net_both ["net"; "layer"]%string
           Examples.layer1 Examples.w1).
  - now left.
  - exists Examples.net_both. repeat split; now left.
  - now left.
  - reflexivity.
Defined.

End AggregatorComplete.
